(** * Braille3D: the token-transduction engine and its two machines

    A shallow embedding of [braille_unicode.py], of the classes [FSM],
    [BrailleTokeniser] and [BrailleTranslator] of [braille_fsm.py], of
    the internal translation path of the driver [braille.py], and of the
    mesh generators of [braille_3d.py] with the driver's assembly of the
    model.

    Conventions.
    - A Python [str] is the list of its code points ([N]); ASCII literals
      are written [py "..."].
    - A dict is a [gmap]; [d[k]] on a missing key raises, which the setup
      code models in the [option] monad.
    - [None] used as a tag, a state name or an empty buffer is [None] of
      an [option].
    - [FSM.process] is a [while] loop that need not end: it is run with a
      bound on the number of iterations, and [Timeout] says that the bound
      was reached with tokens still queued.
    - The floats of the meshes are values of a type with the operations
      the code uses ([PyNum]); a triangle is three [Z] indices. *)

From Stdlib Require Import NArith ZArith Lia Ascii String.
From stdpp Require Import base option list numbers strings countable gmap fin_maps
  sorting.

Local Open Scope N_scope.

(** ** Python strings *)

Abbreviation str := (list N).

Definition py (s : string) : str := Ascii.N_of_ascii <$> String.list_ascii_of_string s.

(** [s[::-1]] *)
Definition str_reverse (s : str) : str := rev s.

(** [s[a:b]] and [s[a:]] for indices that are not negative. *)
Definition slice (a b : nat) (s : str) : str := take (b - a)%nat (drop a s).
Definition slice_from (a : nat) (s : str) : str := drop a s.

(** [for t in txt]: the one-character strings of [txt]. *)
Definition chars_of (txt : str) : list str := (fun c => [c]) <$> txt.

Definition is_prefix (x txt : str) : bool :=
  bool_decide (take (length x) txt = x).

(** [txt.find(x)]: the least index at which [x] occurs in [txt], [-1] when
    there is none. *)
Fixpoint find_from (x txt : str) (i : Z) : Z :=
  if is_prefix x txt then i
  else match txt with
       | [] => (-1)%Z
       | _ :: rest => find_from x rest (i + 1)%Z
       end.

Definition str_find (txt x : str) : Z := find_from x txt 0%Z.

(** The case maps of [str.upper] and [str.lower] on ASCII letters; the
    tables of [BrailleTokeniser] and [BrailleTranslator] apply [upper] to
    ASCII literals only. *)
Definition ascii_upper_cp (c : N) : N :=
  if (97 <=? c) && (c <=? 122) then c - 32 else c.
Definition ascii_lower_cp (c : N) : N :=
  if (65 <=? c) && (c <=? 90) then c + 32 else c.
Definition ascii_upper (s : str) : str := ascii_upper_cp <$> s.
Definition ascii_lower (s : str) : str := ascii_lower_cp <$> s.

(** ** Number formatting and parsing used by [get_conversion_maps] *)

(** Digits of [n] in [base], most significant first; [fuel] bounds the
    number of digits. *)
Fixpoint digits_fuel (fuel : nat) (base n : N) (acc : list N) : list N :=
  match fuel with
  | O => acc
  | S f =>
      let acc' := (n mod base) :: acc in
      if n / base =? 0 then acc' else digits_fuel f base (n / base) acc'
  end.

Definition digits (base n : N) : list N :=
  digits_fuel (S (N.to_nat (N.log2 n))) base n [].

(** ['0'..'9'], then ['A'..] for the digits from ten on. *)
Definition digit_char (d : N) : N := if d <? 10 then 48 + d else 55 + d.

Definition rjust (fill : N) (width : nat) (s : str) : str :=
  replicate (width - length s)%nat fill ++ s.

(** [f'{n:0wb}'] *)
Definition format_0b (width : nat) (n : N) : str :=
  rjust 48 width (digit_char <$> digits 2 n).
(** [f'{n:w}'] *)
Definition format_d (width : nat) (n : N) : str :=
  rjust 32 width (digit_char <$> digits 10 n).
(** [f'{n:wX}'] *)
Definition format_X (width : nat) (n : N) : str :=
  rjust 32 width (digit_char <$> digits 16 n).

Definition hex_value (c : N) : option N :=
  if (48 <=? c) && (c <=? 57) then Some (c - 48)
  else if (65 <=? c) && (c <=? 70) then Some (c - 55)
  else if (97 <=? c) && (c <=? 102) then Some (c - 87)
  else None.

(** [int(s, 16)] on a string of hexadecimal digits; [None] is the
    [ValueError] of any other string the code could build. *)
Definition int16 (s : str) : option N :=
  match s with
  | [] => None
  | _ => foldl (fun acc c => a ← acc; d ← hex_value c; Some (16 * a + d)) (Some 0) s
  end.

(** [chr(n)]; [None] is the [ValueError] past the last code point. *)
Definition chr (n : N) : option str :=
  if n <? 0x110000 then Some [n] else None.

(** ** braille_unicode.py *)

(** [range(a, b)] *)
Definition range (a b : N) : list N := N.of_nat <$> seq (N.to_nat a) (N.to_nat (b - a)).

(** The body of the inner loop: the two dicts after the assignments for
    [(page_i, i)]. *)
Definition conversion_step (page_i i : N)
    (maps : gmap str str * gmap str str) : option (gmap str str * gmap str str) :=
  let '(dots2unicode, unicode2dots) := maps in
  let dot_str := str_reverse (format_0b 2 page_i ++ format_0b 4 i) in
  let dot_str := slice 0 3 dot_str ++ py " " ++ slice_from 3 dot_str in
  let uni_hex_str := py "28" ++ format_d 1 page_i ++ format_X 1 i in
  n ← int16 uni_hex_str;
  uni_char ← chr n;
  Some (<[dot_str := uni_char]> dots2unicode, <[uni_char := dot_str]> unicode2dots).

(** A [for] loop whose body may raise. *)
Definition for_each {A S : Type} (xs : list A) (body : A → S → option S) (s : S) : option S :=
  foldl (fun acc x => s ← acc; body x s) (Some s) xs.

Definition get_conversion_maps : option (gmap str str * gmap str str) :=
  for_each (range 0 4) (fun page_i =>
    for_each (range 0 16) (fun i => conversion_step page_i i)) (∅, ∅).

(** ** braille_fsm.py: tokens, transitions and machines *)

(** A tag or a state name: a string, or Python's [None]. *)
Abbreviation tag := (option str).

Definition Token : Type := str * tag.

(** A [str] object of an output list. [FSM.process] tells the end marker
    from text with [is], which compares the objects and not their values,
    so an entry carries the address of its object next to its value. *)
Record pystr := PyStr { addr : N; chars : str }.

(** [a is b] *)
Definition is_ (a b : pystr) : bool := addr a =? addr b.

(** The object of a string in an output list: a literal, a character
    taken from a string, or a string that [setup] computes. The
    interpreter keeps one object for each one-character string of Latin-1
    and for each string constant of a module, so that equal literals are
    the same object. Here every value has one object, its address given
    by the value, which decides [txt is self.end] as the interpreter
    does: an object with another value than ['|'] is not the marker's,
    and a string ['|'] is the marker's object. *)
Definition str_obj (s : str) : pystr := {| addr := Npos (encode s); chars := s |}.

Definition Transition : Type := list Token * list pystr * tag.

(** What [process] prints: the two diagnostics of the loop. *)
Inductive diag :=
  | Undefined_state (state : tag)
  | Not_recognised (txt : str) (state : tag).

(** An [FSM] object: its attributes, and the two methods a subclass may
    override. [states[name]] is the dict [{'transitions': t}], kept as
    [t]. *)
Record FSM := MkFSM {
  end_ : pystr;
  states : gmap tag (gmap str Transition);
  start_state : tag;
  transform : str → tag → tag → option Transition;
  postprocess : option str → tag → tag → list Token
}.

(** [FSM.transform] *)
Definition FSM_transform (txt : str) (tg state : tag) : option Transition := None.

(** [FSM.postprocess] *)
Definition FSM_postprocess (txt : option str) (tg state : tag) : list Token :=
  match txt with
  | None => []
  | Some t => [(t, state)]
  end.

(** The end marker of [FSM.__init__]: [self.end = '|'] binds the object
    of the literal, which is the object of every literal ['|']. *)
Definition FSM_end : pystr := str_obj (py "|").

(** [FSM.__init__] up to the call of [setup]; [FSM.setup] does nothing. *)
Definition FSM_init : FSM :=
  {| end_ := FSM_end; states := ∅; start_state := None;
     transform := FSM_transform; postprocess := FSM_postprocess |}.

(** [t.update(transition_map)]: the entries of the argument win. *)
Definition dict_update {K V} `{Countable K} (t m : gmap K V) : gmap K V := m ∪ t.

Definition add_state (self : FSM) (name : tag)
    (transition_map_list : list (gmap str Transition)) : FSM :=
  let t := foldl dict_update ∅ transition_map_list in
  {| end_ := end_ self; states := <[name := t]> (states self);
     start_state := start_state self;
     transform := transform self; postprocess := postprocess self |}.

Definition set_start_state (self : FSM) (name : tag) : FSM :=
  {| end_ := end_ self; states := states self; start_state := name;
     transform := transform self; postprocess := postprocess self |}.

(** ** FSM.process *)

(** The argument of [process]: a string or a list of tokens. *)
Inductive input :=
  | Text (s : str)
  | Tokens (toks : list Token).

(** The local variables of [process], and what it has printed. *)
Record config := {
  in_seq : list Token;
  out_txt : option str;
  out_seq : list Token;
  state : tag;
  printed : list diag
}.

Inductive run (A : Type) :=
  | Ret (a : A)
  | Raise
  | Timeout.
Arguments Ret {A} a.
Arguments Raise {A}.
Arguments Timeout {A}.

(** One round of [for txt in out_]. *)
Definition emit (self : FSM) (tg st : tag)
    (acc : option str * list Token) (txt : pystr) : option str * list Token :=
  let '(out_txt, out_seq) := acc in
  if is_ txt (end_ self)
  then (None, out_seq ++ postprocess self out_txt tg st)
  else (Some (match out_txt with
              | None => chars txt
              | Some buf => buf ++ chars txt
              end), out_seq).

(** What one execution of the loop body does: go on with new locals, or
    leave [process] by [return None]. *)
Inductive outcome :=
  | Continue (c : config)
  | Return_None (printed : list diag).

(** The loop body, entered with [in_seq = in_tok :: rest]. *)
Definition body (self : FSM) (c : config) (in_tok : Token) (rest : list Token) : outcome :=
  match states self !! state c with
  | None => Return_None (printed c ++ [Undefined_state (state c)])
  | Some tr =>
      let '(txt, tg) := in_tok in
      let result :=
        match tr !! txt with
        | Some r => Some r
        | None => transform self txt tg (state c)
        end in
      match result with
      | None =>
          Continue {| in_seq := rest; out_txt := out_txt c; out_seq := out_seq c;
                      state := state c;
                      printed := printed c ++ [Not_recognised txt (state c)] |}
      | Some (in_, out_, state_) =>
          let '(out_txt', out_seq') :=
            foldl (emit self tg (state c)) (out_txt c, out_seq c) out_ in
          Continue {| in_seq := in_ ++ rest; out_txt := out_txt'; out_seq := out_seq';
                      state := state_; printed := printed c |}
      end
  end.

(** The statements after the loop. *)
Definition trailing (c : config) : list Token :=
  match out_txt c with
  | Some t => out_seq c ++ [(t, state c)]
  | None => out_seq c
  end.

(** The [while] loop run for at most [fuel] executions of its body; the
    value is what [process] returns together with what it printed. *)
Fixpoint loop (self : FSM) (fuel : nat) (c : config) : run (option (list Token) * list diag) :=
  match in_seq c with
  | [] => Ret (Some (trailing c), printed c)
  | in_tok :: rest =>
      match fuel with
      | O => Timeout
      | S fuel' =>
          match body self c in_tok rest with
          | Continue c' => loop self fuel' c'
          | Return_None p => Ret (None, p)
          end
      end
  end.

Definition initial (self : FSM) (in_toks : input) : config :=
  {| in_seq := match in_toks with
               | Text s => (fun t => (t, None)) <$> chars_of s
               | Tokens toks => toks
               end;
     out_txt := None; out_seq := []; state := start_state self; printed := [] |}.

(** [self.process(in_toks)], with [debug] left at [False]. *)
Definition process (self : FSM) (fuel : nat) (in_toks : input)
    : run (option (list Token) * list diag) :=
  loop self fuel (initial self in_toks).

(** ** BrailleFSM: the tags *)

Definition whitespace_tag : tag := Some (py "whitespace").
Definition lower_tag : tag := Some (py "lower_str").
Definition upper_tag : tag := Some (py "upper_str").
Definition mixed_tag : tag := Some (py "mixed_str").
Definition alphanum_tag : tag := Some (py "alphanum").
Definition number_tag : tag := Some (py "number").
Definition punctuation_tag : tag := Some (py "punctuation").

(** [{k: f(k) for k in s}] for a string [s] *)
Definition dict_of_chars {V} (f : str → V) (s : str) : gmap str V :=
  foldl (fun d k => <[k := f k]> d) ∅ (chars_of s).

(** A dict display [{k1: v1, k2: v2, ...}] *)
Definition dict_of_items {K V} `{Countable K} (items : list (K * V)) : gmap K V :=
  foldl (fun d kv => <[kv.1 := kv.2]> d) ∅ items.

(** ** BrailleTokeniser *)

Module BrailleTokeniser.

Definition lower : str := py "abcdefghijklmnopqrstuvwxyz".
Definition upper : str := ascii_upper lower.
Definition digit : str := py "0123456789".
Definition white : str := [9; 32].
Definition punct : str := py ",.;:".

Section Tables.
Variable self : FSM.

(** [{k: ([], [k], t) for k in s}] *)
Definition keep (s : str) (t : tag) : gmap str Transition :=
  dict_of_chars (fun k => ([], [str_obj k], t)) s.

(** [{k: ([], [self.end,k], t) for k in s}] *)
Definition flush (s : str) (t : tag) : gmap str Transition :=
  dict_of_chars (fun k => ([], [end_ self; str_obj k], t)) s.
End Tables.

Definition setup (self : FSM) : FSM :=
  let w_tag := whitespace_tag in
  let u_tag := upper_tag in
  let l_tag := lower_tag in
  let m_tag := mixed_tag in
  let a_tag := alphanum_tag in
  let n_tag := number_tag in
  let p_tag := punctuation_tag in
  let self := add_state self p_tag
    [ keep punct p_tag; flush self lower l_tag; flush self upper u_tag;
      flush self digit n_tag; flush self white w_tag ] in
  let self := add_state self w_tag
    [ flush self lower l_tag; flush self upper u_tag; flush self digit n_tag;
      flush self white w_tag; flush self punct p_tag ] in
  let self := add_state self l_tag
    [ keep lower l_tag; keep upper m_tag; keep digit a_tag;
      flush self white w_tag; flush self punct p_tag ] in
  let self := add_state self u_tag
    [ keep lower m_tag; keep upper u_tag; keep digit a_tag;
      flush self white w_tag; flush self punct p_tag ] in
  let self := add_state self m_tag
    [ keep (lower ++ upper) m_tag; keep digit a_tag;
      flush self white w_tag; flush self punct p_tag ] in
  let self := add_state self a_tag
    [ keep (lower ++ upper ++ digit) a_tag;
      flush self white w_tag; flush self punct p_tag ] in
  let self := add_state self n_tag
    [ keep (lower ++ upper) a_tag; keep digit n_tag;
      flush self white w_tag; flush self punct p_tag ] in
  set_start_state self w_tag.

(** [BrailleTokeniser()] *)
Definition new : FSM := setup FSM_init.

End BrailleTokeniser.

(** ** BrailleTranslator *)

(** [{key(k,v): val(k,v) for k,v in d.items()}] where computing an entry
    may raise. *)
Definition dict_comp {K V K' V'} `{Countable K, Countable K'}
    (f : K → V → option (K' * V')) (d : gmap K V) : option (gmap K' V') :=
  foldl (fun acc kv => m ← acc; e ← f kv.1 kv.2; Some (<[e.1 := e.2]> m))
        (Some ∅) (map_to_list d).

(** [{k: f(i,k) for (i,k) in enumerate(s)}] where [f] may raise. *)
Definition dict_of_enumerate {V} (f : nat → str → option V) (s : str) : option (gmap str V) :=
  foldl (fun acc ik => m ← acc; v ← f ik.1 ik.2; Some (<[ik.2 := v]> m))
        (Some ∅) (imap pair (chars_of s)).

Module BrailleTranslator.

Definition lower_codes : list (str * str) :=
  [ (py "a", py "100 000"); (py "b", py "110 000"); (py "c", py "100 100");
    (py "d", py "100 110"); (py "e", py "100 010"); (py "f", py "110 100");
    (py "g", py "110 110"); (py "h", py "110 010"); (py "i", py "010 100");
    (py "j", py "010 110");
    (py "k", py "101 000"); (py "l", py "111 000"); (py "m", py "101 100");
    (py "n", py "101 110"); (py "o", py "101 010"); (py "p", py "111 100");
    (py "q", py "111 110"); (py "r", py "111 010"); (py "s", py "011 100");
    (py "t", py "011 110");
    (py "u", py "101 001"); (py "v", py "111 001"); (py "w", py "010 111");
    (py "x", py "101 101"); (py "y", py "101 111"); (py "z", py "101 011") ].

Definition misc_codes : list (str * str) :=
  [ (py " ", py "000 000"); (py ",", py "010 000"); (py ".", py "010 011");
    (py "for", py "111 111"); (py "and", py "111 101"); (py "the", py "011 101");
    (py "ed", py "110 101"); (py "ing", py "001 101") ].

Definition spaces_per_tab : nat := 2.

Definition swap_tokens (l_tag w_tag : tag) : list (str * list Token) :=
  [ (py "tomorrow", [(py "tm", l_tag)]);
    (py "friend", [(py "fr", l_tag)]);
    (py "little", [(py "ll", l_tag)]);
    (py "you", [(py "y", l_tag)]);
    (py "like", [(py "l", l_tag)]);
    (py "him", [(py "hm", l_tag)]);
    ([9], replicate spaces_per_tab (py " ", w_tag)) ].

(** The [for x in self.fragments] loop of [transform]: the tokens of the
    first fragment found in [txt], [None] when the loop falls through. *)
Fixpoint split_fragment (fragments : list str) (txt : str) (tg : tag)
    : option (list Token) :=
  match fragments with
  | [] => None
  | x :: more =>
      let i := str_find txt x in
      if (i =? -1)%Z then split_fragment more txt tg
      else
        let pre := take (Z.to_nat i) txt in
        let post := drop (Z.to_nat (i + Z.of_nat (length x))) txt in
        Some ((fun t => (t, tg)) <$> filter (fun t => t ≠ []) [pre; x; post])
  end.

Section Translator.

(** [txt.lower()]: Python's case mapping of a whole string, which is
    not code of the repository. *)
Variable str_lower : str → str.

(** [BrailleTranslator.transform]; [upper_code], [number_code] and
    [fragments] are the attributes [setup] stores in the object. *)
Definition transform (upper_code number_code : str) (fragments : list str)
    (txt : str) (tg state : tag) : option Transition :=
  let u_tag := upper_tag in
  let l_tag := lower_tag in
  let n_tag := number_tag in
  if bool_decide (tg = n_tag) then
    let tok := (txt, l_tag) in
    let numtok := (number_code, tg) in
    Some ([numtok; tok], [], state)
  else if bool_decide (tg = u_tag) then
    let tok := (str_lower txt, l_tag) in
    let uptok := (upper_code, tg) in
    Some ([uptok; uptok; tok], [], state)
  else
    match split_fragment fragments txt tg with
    | Some in_ => Some (in_, [], state)
    | None => Some ((fun t => (t, tg)) <$> chars_of txt, [], state)
    end.

Definition setup (self : FSM) : option FSM :=
  maps ← get_conversion_maps;
  let dots_to_uni := maps.1 in
  let state : tag := Some (py "default") in
  let l_tag := lower_tag in
  let w_tag := whitespace_tag in
  upper_code ← dots_to_uni !! py "000 001";
  number_code ← dots_to_uni !! py "001 111";
  let fragments := [py "ed"; py "ing"] in
  let code_entry (k v : str) : option (str * Transition) :=
    u ← dots_to_uni !! v; Some (k, ([], [str_obj u], state)) in
  lower ← dict_comp code_entry (dict_of_items lower_codes);
  misc ← dict_comp code_entry (dict_of_items misc_codes);
  swap ← dict_comp (fun k (v : list Token) => Some (k, (v, [], state)))
                   (dict_of_items (swap_tokens l_tag w_tag));
  upper ← dict_comp (fun (k : str) (t : Transition) =>
             let '(i, o, s) := t in
             Some (ascii_upper k, (i, [str_obj upper_code] ++ o, s))) lower;
  number ← dict_of_enumerate (fun i _ =>
             c ← chars_of (py "abcdefghij") !! i; lower !! c) (py "1234567890");
  uni ← dict_comp (fun (_ v : str) => Some (v, ([], [str_obj v], state))) dots_to_uni;
  let self := add_state self state [lower; upper; number; misc; uni; swap] in
  Some (MkFSM (end_ self) (states self) state
              (transform upper_code number_code fragments) (postprocess self)).

(** [BrailleTranslator()] *)
Definition new : option FSM := setup FSM_init.

(** ** braille.py: the internal translation path

    [btok.process(input_txt)], [btrn.process(tokens)], then
    [unicode_dots[0][0]]. [Raise] stands for the exception of a
    failed [setup], of [len(None)], of [None[0]] and of [[][0]]. *)
Definition translate (fuel : nat) (input_txt : str) : run str :=
  let btok := BrailleTokeniser.new in
  match new with
  | None => Raise
  | Some btrn =>
      match process btok fuel (Text input_txt) with
      | Ret (Some tokens, _) =>
          match process btrn fuel (Tokens tokens) with
          | Ret (Some (tok :: _), _) => Ret tok.1
          | Ret _ => Raise
          | Raise => Raise
          | Timeout => Timeout
          end
      | Ret (None, _) => Raise
      | Raise => Raise
      | Timeout => Timeout
      end
  end.

End Translator.

End BrailleTranslator.

(** * Definitions the properties are stated with *)

#[global] Instance pystr_eq_dec : EqDecision pystr.
Proof. solve_decision. Defined.

#[global] Instance diag_eq_dec : EqDecision diag.
Proof. solve_decision. Defined.

(** [out_txt = txt if (out_txt==None) else out_txt+txt] *)
Definition buffer_add (buf : option str) (txt : str) : option str :=
  Some (match buf with None => txt | Some b => b ++ txt end).

(** A machine with the single state ["s"], whose only transition leaves
    for the state ["gone"], which is not in its table. *)
Definition dead_end_machine : FSM :=
  set_start_state
    (add_state FSM_init (Some (py "s"))
       [dict_of_items [(py "x", ([], [str_obj (py "x")], Some (py "gone")))]])
    (Some (py "s")).

(** A machine with the single state ["s"], which copies the characters
    ['x'], ['|'] and ['y'] to its output: its table is
    [{c: ([], [c], 's') for c in 'x|y'}]. *)
Definition copying_machine : FSM :=
  set_start_state
    (add_state FSM_init (Some (py "s"))
       [dict_of_chars (fun k => ([], [str_obj k], Some (py "s"))) (py "x|y")])
    (Some (py "s")).

Definition is_bit (c : N) : bool := (c =? 48) || (c =? 49).

(** A dot pattern ["abc def"]: three characters ['0'] or ['1'], a space,
    three more. *)
Definition is_dot_pattern (k : str) : bool :=
  match k with
  | [a; b; c; sp; d; e; f] =>
      is_bit a && is_bit b && is_bit c && (sp =? 32) && is_bit d && is_bit e && is_bit f
  | _ => false
  end.

(** A code point of the 6-dot Braille block, U+2800 to U+283F. *)
Definition braille_cp (c : N) : Prop := 0x2800 ≤ c ≤ 0x283F.

(** A one-character string with such a code point. *)
Definition is_braille_char (v : str) : bool :=
  match v with
  | [c] => (0x2800 <=? c) && (c <=? 0x283F)
  | _ => false
  end.

(** The two dicts [get_conversion_maps] returns (empty, should it raise). *)
Definition conversion_maps : gmap str str * gmap str str :=
  default (∅, ∅) get_conversion_maps.

(** The name of the one state of [BrailleTranslator]. *)
Definition default_state : tag := Some (py "default").

(** [self.upper_code] and [self.number_code] as [setup] computes them. *)
Definition upper_indicator : option str :=
  maps ← get_conversion_maps; maps.1 !! py "000 001".
Definition number_indicator : option str :=
  maps ← get_conversion_maps; maps.1 !! py "001 111".

(** The transition table [setup] gives to the state ["default"]; it is
    the same whatever [str.lower] does (lemma [new_unfold]). *)
Definition translator_table : gmap str Transition :=
  default ∅ (btrn ← BrailleTranslator.new ascii_lower; states btrn !! default_state).

(** The text of the records of an output list, joined. *)
Definition joined (out : list Token) : str := concat (out.*1).

#[global] Instance run_eq_dec {A} `{EqDecision A} : EqDecision (run A).
Proof. solve_decision. Defined.

(** The object [BrailleTranslator()] is, given [str.lower]: the marker of
    [FSM.__init__], one state, and the subclass's [transform] with the two
    indicator codes and the fragments (lemma [new_unfold]). *)
Definition translator (str_lower : str → str) : FSM :=
  MkFSM FSM_end {[default_state := translator_table]} default_state
    (BrailleTranslator.transform str_lower [0x2820] [0x283C] [py "ed"; py "ing"])
    FSM_postprocess.

(** What [process] returns when nothing was ever flushed: the buffer as
    one record, or no record. *)
Definition single_record (buf : option str) (st : tag) : list Token :=
  match buf with
  | Some t => [(t, st)]
  | None => []
  end.

(** The output list [out_] of the transition which the loop body applies
    to the token [in_tok] with the locals [c]; empty when there is no
    transition. *)
Definition applied_output (self : FSM) (c : config) (in_tok : Token) : list pystr :=
  match states self !! state c with
  | None => []
  | Some tr =>
      let '(txt, tg) := in_tok in
      match (match tr !! txt with
             | Some r => Some r
             | None => transform self txt tg (state c)
             end) with
      | Some (_, out_, _) => out_
      | None => []
      end
  end.

(** The entries of the output lists of all the transitions applied in at
    most [fuel] executions of the loop body, in the order in which the
    loop goes through them. *)
Fixpoint emitted (self : FSM) (fuel : nat) (c : config) : list pystr :=
  match in_seq c, fuel with
  | in_tok :: rest, S fuel' =>
      match body self c in_tok rest with
      | Continue c' => applied_output self c in_tok ++ emitted self fuel' c'
      | Return_None _ => []
      end
  | _, _ => []
  end.

(** * Definitions of the further properties *)

(** ** The engine: the locals at the end of the loop *)

(** [c] with another queue. *)
Definition with_queue (c : config) (q : list Token) : config :=
  {| in_seq := q; out_txt := out_txt c; out_seq := out_seq c;
     state := state c; printed := printed c |}.

(** The loop of [process] as [loop] runs it, giving the locals with which
    the loop is left ([inl]), or what was printed when it is left by
    [return None] ([inr]). *)
Fixpoint final (self : FSM) (fuel : nat) (c : config) : run (config + list diag) :=
  match in_seq c with
  | [] => Ret (inl c)
  | in_tok :: rest =>
      match fuel with
      | O => Timeout
      | S fuel' =>
          match body self c in_tok rest with
          | Continue c' => final self fuel' c'
          | Return_None p => Ret (inr p)
          end
      end
  end.

(** The value in the last map of the list that has the key [k]. *)
Definition last_binding {V} (k : str) (maps : list (gmap str V)) : option V :=
  foldl (fun acc m => match m !! k with Some v => Some v | None => acc end) None maps.

(** ** The tokeniser: classes of characters and of runs *)

(** The characters of the five strings of [BrailleTokeniser.setup]. *)
Definition recognised : str :=
  BrailleTokeniser.lower ++ BrailleTokeniser.upper ++ BrailleTokeniser.digit
  ++ BrailleTokeniser.white ++ BrailleTokeniser.punct.

Definition is_recognised (c : N) : bool := bool_decide (c ∈ recognised).

(** The seven states of the tokeniser, which are also the tags of its
    records. *)
Definition tokeniser_states : list tag :=
  [punctuation_tag; whitespace_tag; lower_tag; upper_tag; mixed_tag;
   alphanum_tag; number_tag].

(** The transition table of a state of the tokeniser. *)
Definition tokeniser_table (st : tag) : gmap str Transition :=
  default ∅ (states BrailleTokeniser.new !! st).

(** The characters a run with the tag [st] is made of, as the comments on
    the tags say. *)
Definition class_of (st : tag) : str :=
  if decide (st = whitespace_tag) then BrailleTokeniser.white
  else if decide (st = punctuation_tag) then BrailleTokeniser.punct
  else if decide (st = lower_tag) then BrailleTokeniser.lower
  else if decide (st = upper_tag) then BrailleTokeniser.upper
  else if decide (st = mixed_tag) then BrailleTokeniser.lower ++ BrailleTokeniser.upper
  else if decide (st = alphanum_tag)
       then BrailleTokeniser.lower ++ BrailleTokeniser.upper ++ BrailleTokeniser.digit
  else if decide (st = number_tag) then BrailleTokeniser.digit
  else [].

(** Runs of letters and digits, of whitespace, of punctuation. *)
Inductive kind := Word | Space | Punct.

#[global] Instance kind_eq_dec : EqDecision kind.
Proof. solve_decision. Defined.

Definition kind_of (st : tag) : kind :=
  if decide (st = whitespace_tag) then Space
  else if decide (st = punctuation_tag) then Punct
  else Word.

(** A run of the tokeniser: not empty, made of the characters of its
    tag, and one character long when it is whitespace. *)
Definition run_of (st : tag) (t : str) : Prop :=
  t ≠ [] ∧ Forall (fun c => c ∈ class_of st) t ∧
  (st = whitespace_tag → length t = 1%nat).

Definition good_record (r : Token) : Prop :=
  r.2 ∈ tokeniser_states ∧ run_of r.2 r.1.

(** A record tagged [t2] may come right after one tagged [t1]: not two
    runs of letters and digits, and not two runs of punctuation. *)
Definition may_follow (t1 t2 : tag) : Prop :=
  kind_of t1 = Space ∨ kind_of t1 ≠ kind_of t2.

(** The text of the diagnostic of a miss. *)
Definition missed (d : diag) : option str :=
  match d with
  | Not_recognised txt _ => Some txt
  | Undefined_state _ => None
  end.

(** What the table of [st] has for the recognised character [c], checked
    against the classes: the transition pushes nothing and goes to one of
    the seven states, whose class has [c]; it either appends [c] to the
    run in progress, whose characters the new state's class has too, or
    flushes that run and starts one with [c]. *)
Definition tokeniser_step_ok (st : tag) (c : N) : bool :=
  match tokeniser_table st !! [c] with
  | Some (in_, out_, st') =>
      bool_decide (in_ = []) && bool_decide (st' ∈ tokeniser_states)
      && bool_decide (c ∈ class_of st')
      && ((bool_decide (out_ = [str_obj [c]])
           && forallb (fun x => bool_decide (x ∈ class_of st')) (class_of st)
           && bool_decide (kind_of st' = kind_of st)
           && negb (bool_decide (st' = whitespace_tag)))
          || (bool_decide (out_ = [FSM_end; str_obj [c]])
              && bool_decide (may_follow st st')))
  | None => false
  end.

(** What holds of the locals of [process] all along a run of the
    tokeniser: the state is one of the seven, the records made so far and
    the buffer are runs, the output queue is still empty as long as the
    buffer has never been written to, and neighbouring records (the run in
    progress included) have tags that may follow each other. *)
Definition tokeniser_inv (c : config) : Prop :=
  state c ∈ tokeniser_states ∧
  Forall good_record (out_seq c) ∧
  match out_txt c with
  | Some b => run_of (state c) b
  | None => out_seq c = []
  end ∧
  Sorted may_follow ((out_seq c).*2) ∧
  TlRel may_follow (state c) ((out_seq c).*2).

(** The text made so far: the records, then the buffer. *)
Definition flat (c : config) : str := joined (out_seq c) ++ default [] (out_txt c).

(** ** The translator: what a token does *)

(** What the loop body does with the token [(txt, tg)] in the
    translator: the tokens it pushes and the strings it adds to the
    buffer, from the table when [txt] is a key and from [transform]
    otherwise. *)
Definition translator_action (str_lower : str → str) (txt : str) (tg : tag)
    : list Token * list str :=
  match (translator_table !! txt : option Transition) with
  | Some (in_, out_, _) => (in_, chars <$> out_)
  | None =>
      match transform (translator str_lower) txt tg default_state with
      | Some (in_, _, _) => (in_, [])
      | None => ([], [])
      end
  end.

(** [b1] then [b2], for two buffers. *)
Definition buffer_app (b1 b2 : option str) : option str :=
  match b1, b2 with
  | Some x, Some y => Some (x ++ y)
  | Some x, None => Some x
  | None, _ => b2
  end.

(** The locals of the translator with the queue [q] and the buffer [b]:
    nothing flushed, nothing printed. *)
Definition translator_config (q : list Token) (b : option str) : config :=
  {| in_seq := q; out_txt := b; out_seq := []; state := default_state; printed := [] |}.

(** ** The translator: a measure of the work left *)

(** A character the translator has a transition for. *)
Definition known (c : N) : Prop := is_Some (translator_table !! [c]).

(** A tab counts double: it is replaced by two spaces. *)
Definition cp_weight (c : N) : nat := if c =? 9 then 2%nat else 1%nat.

Definition weight (txt : str) : nat := sum_list_with cp_weight txt.

(** A bound on the executions of the loop body a token costs until it
    and all it pushes are consumed: twice the weight of the text less
    one, and the extra steps of the number and upper-case branches of
    [transform] when the text is not a key of the table. *)
Definition cost (tok : Token) : nat :=
  Nat.max 1 (2 * weight tok.1 - 1)
  + match translator_table !! tok.1 with
    | Some _ => 0
    | None => if decide (tok.2 = number_tag) then 2
              else if decide (tok.2 = upper_tag) then 3 else 0
    end.

Definition queue_cost (q : list Token) : nat := sum_list_with cost q.

(** A token list over the translator's alphabet. *)
Definition known_tokens (q : list Token) : Prop :=
  Forall (fun tok : Token => Forall known tok.1) q.

(** ** Dot patterns as bits *)

(** ['1'] for a raised dot, ['0'] for none. *)
Definition bit_char (b : bool) : N := if b then 49 else 48.

(** The pattern ["abc def"] of the dots 1 to 6. *)
Definition dot_pattern (d1 d2 d3 d4 d5 d6 : bool) : str :=
  [bit_char d1; bit_char d2; bit_char d3; 32; bit_char d4; bit_char d5; bit_char d6].

(** The code point of the Unicode chart for these dots: dot [k] is bit
    [k - 1] of the offset in the block at U+2800. *)
Definition dots_code_point (d1 d2 d3 d4 d5 d6 : bool) : N :=
  0x2800 + N.b2n d1 + 2 * N.b2n d2 + 4 * N.b2n d3
         + 8 * N.b2n d4 + 16 * N.b2n d5 + 32 * N.b2n d6.

(** The cell the translator's table has for the character [c]. *)
Definition cell_of (c : N) : str :=
  match (translator_table !! [c] : option Transition) with
  | Some (_, [o], _) => chars o
  | _ => []
  end.

(** ** braille_3d.py: meshes

    The coordinates of the vertices are Python floats (and the ints mixed
    with them); their arithmetic is not modelled but taken as an
    interface, so that what is proved of the meshes (how many vertices and
    triangles, which vertices a triangle names) holds whatever the
    arithmetic gives. The only exception the arithmetic of these
    functions can raise is the division by [vtx_per_ring = 0]. *)
Class PyNum (num : Type) := {
  of_int : Z → num;          (* an int, or a float literal with that value *)
  fhalf : num;               (* the literal [0.5] *)
  fpi : num;                 (* [math.pi] *)
  fadd : num → num → num;
  fsub : num → num → num;
  fmul : num → num → num;
  fdiv : num → num → num;
  fneg : num → num;
  fsin : num → num;
  fcos : num → num
}.

(** [range(a, b)] on ints. *)
Definition range_Z (a b : Z) : list Z :=
  (fun k => (a + Z.of_nat k)%Z) <$> seq 0 (Z.to_nat (b - a)).

(** A triangle: three indices into a list of vertices. *)
Abbreviation Tri := (Z * Z * Z)%type.

(** A vertex: three coordinates; a mesh: vertices and triangles. *)
Abbreviation Vtx num := (num * num * num)%type.

Abbreviation Mesh num := (list (Vtx num) * list Tri)%type.

(** [Braille3DGenerator.plane] *)
Definition plane (i j k l : Z) : list Tri := [ (i, j, k); (k, l, i) ].

(** [[[i+N,j+N,k+N] for i,j,k in tri_]] *)
Definition shift (N : Z) (tri_ : list Tri) : list Tri :=
  (fun t : Tri => let '(i, j, k) := t in ((i + N)%Z, (j + N)%Z, (k + N)%Z)) <$> tri_.

(** [seal_disc] of [generate_unit_dot]. Its second parameter is never
    read: the body names [ring_i0], the variable of the enclosing
    function, whose value at the call is passed here as [ring_i0]. *)
Definition seal_disc (vtx_per_ring ring_i0 : Z) (centre_i ring_i : Z) : list Tri :=
  (fun i => let j := ((i + 1) mod vtx_per_ring)%Z in
            ((ring_i0 + i)%Z, (ring_i0 + j)%Z, centre_i))
  <$> range_Z 0 vtx_per_ring.

(** [seal_cylinder] of [generate_unit_dot]. *)
Definition seal_cylinder (vtx_per_ring : Z) (r1 r2 : Z) : list Tri :=
  concat ((fun i => let j := ((i + 1) mod vtx_per_ring)%Z in
                    plane (r1 + i) (r1 + j) (r2 + j) (r2 + i))
          <$> range_Z 0 vtx_per_ring).

(** The triangles of [generate_unit_cube]. *)
Definition unit_cube_tri : list Tri :=
  plane 4 5 6 7 ++ plane 3 2 1 0 ++ plane 0 1 5 4
  ++ plane 1 2 6 5 ++ plane 2 3 7 6 ++ plane 3 0 4 7.

(** Every index of every triangle names one of [n] vertices. *)
Definition tri_in_range (n : nat) (t : Tri) : Prop :=
  let '(i, j, k) := t in
  (0 ≤ i < Z.of_nat n)%Z ∧ (0 ≤ j < Z.of_nat n)%Z ∧ (0 ≤ k < Z.of_nat n)%Z.

Section Braille3D.

Context {num : Type} `{PyNum num}.

(** A mesh whose triangles name vertices of the mesh. *)
Definition well_formed (m : Mesh num) : Prop := Forall (tri_in_range (length m.1)) m.2.

(** [N = len(vtx)], [vtx.extend(vtx_)], [tri.extend(tri_ shifted by N)]:
    the three statements by which every generator adds a mesh. *)
Definition extend (m m_ : Mesh num) : Mesh num :=
  let N := Z.of_nat (length m.1) in
  (m.1 ++ m_.1, m.2 ++ shift N m_.2).

(** The body of [for i in range(1,Ntr)] in [generate_unit_dot]: one more
    ring of the dome, joined to the ring below it. *)
Definition taper_ring (Hc Ht : num) (vtx_per_ring Ntr : Z) (unit_circle : list (Vtx num))
    (m : Mesh num) (i : Z) : Mesh num :=
  let '(vtx, tri) := m in
  let theta := fdiv (fmul (of_int i) (fdiv fpi (of_int 2))) (of_int Ntr) in
  let r := fcos theta in
  let theta := fdiv (fmul (of_int i) (fdiv fpi (of_int 2))) (of_int (Ntr - 1)) in
  let h := fadd Hc (fmul (fsin theta) Ht) in
  let vtx := vtx ++ ((fun v : Vtx num => let '(x, y, z) := v in
                        (fmul x r, fmul y r, fadd z h)) <$> unit_circle) in
  let r1 := (Z.of_nat (length vtx) - vtx_per_ring)%Z in
  let r2 := (Z.of_nat (length vtx) - 2 * vtx_per_ring)%Z in
  (vtx, tri ++ seal_cylinder vtx_per_ring r1 r2).

(** [Braille3DGenerator.generate_unit_dot]; [None] is the
    [ZeroDivisionError] of [2.0*math.pi/vtx_per_ring]. *)
Definition generate_unit_dot (taper : num) (vtx_per_ring n_taper_rings : Z) : option (Mesh num) :=
  let Hc := taper in
  let Ht := fsub (of_int 1) taper in
  if (vtx_per_ring =? 0)%Z then None else
  let delta := fdiv (fmul (of_int 2) fpi) (of_int vtx_per_ring) in
  let unit_circle : list (Vtx num) :=
    (fun i => (fsin (fmul (of_int i) delta), fcos (fmul (of_int i) delta), of_int 0))
    <$> range_Z 0 vtx_per_ring in
  let vtx : list (Vtx num) := [(of_int 0, of_int 0, of_int 0)] in
  let vtx := vtx ++ unit_circle in
  let centre_i := 0%Z in
  let ring_i0 := 1%Z in
  let tri := seal_disc vtx_per_ring ring_i0 centre_i ring_i0 in
  let vtx := vtx ++ ((fun v : Vtx num => let '(x, y, z) := v in (x, y, fadd z Hc)) <$> unit_circle) in
  let r1 := (Z.of_nat (length vtx) - vtx_per_ring)%Z in
  let r2 := (Z.of_nat (length vtx) - 2 * vtx_per_ring)%Z in
  let tri := tri ++ seal_cylinder vtx_per_ring r1 r2 in
  let Ntr := (n_taper_rings + 1)%Z in
  let m := foldl (taper_ring Hc Ht vtx_per_ring Ntr unit_circle) (vtx, tri) (range_Z 1 Ntr) in
  let vtx := m.1 ++ [(of_int 0, of_int 0, of_int 1)] in
  let centre_i := (Z.of_nat (length vtx) - 1)%Z in
  let ring_i0 := (centre_i - vtx_per_ring)%Z in
  let tri := m.2 ++ ((fun t : Tri => let '(i, j, k) := t in (j, i, k))
                     <$> seal_disc vtx_per_ring ring_i0 centre_i ring_i0) in
  Some (vtx, tri).

(** [Braille3DGenerator.generate_unit_cube] *)
Definition generate_unit_cube : Mesh num :=
  ([ (of_int 0, of_int 0, of_int 0); (of_int 1, of_int 0, of_int 0);
     (of_int 1, of_int 1, of_int 0); (of_int 0, of_int 1, of_int 0);
     (of_int 0, of_int 0, of_int 1); (of_int 1, of_int 0, of_int 1);
     (of_int 1, of_int 1, of_int 1); (of_int 0, of_int 1, of_int 1) ],
   unit_cube_tri).

(** A [Braille3DGenerator] object. *)
Record Braille3DGenerator := {
  dot_radius : num; dot_height : num;
  dot_dx : num; dot_dy : num;
  char_dx : num; char_dy : num;
  unit_vtx : list (Vtx num); unit_tri : list Tri
}.

(** [Braille3DGenerator.__init__] *)
Definition Braille3DGenerator_init
    (dot_radius dot_height dot_dx dot_dy char_dx char_dy dot_taper : num)
    (dot_vtx_per_ring dot_n_taper_rings : Z) : option Braille3DGenerator :=
  unit ← generate_unit_dot dot_taper dot_vtx_per_ring dot_n_taper_rings;
  Some {| dot_radius := dot_radius; dot_height := dot_height;
          dot_dx := dot_dx; dot_dy := dot_dy;
          char_dx := char_dx; char_dy := char_dy;
          unit_vtx := unit.1; unit_tri := unit.2 |}.

(** [generate_dot] *)
Definition generate_dot (self : Braille3DGenerator) (xyz : Vtx num) : Mesh num :=
  let '(x, y, z) := xyz in
  let r := dot_radius self in
  let h := dot_height self in
  let vtx := (fun v : Vtx num => let '(vx, vy, vz) := v in
                (fadd x (fmul vx r), fadd y (fmul vy r), fadd z (fmul vz h)))
             <$> unit_vtx self in
  let tri := (fun t : Tri => let '(i, j, k) := t in (i, j, k)) <$> unit_tri self in
  (vtx, tri).

(** [[c for c in dotstring if c in ['1','0']]] *)
Definition dot_bits (dotstring : str) : str :=
  filter (fun c => c ∈ [49; 48]) dotstring.

(** The body of [for row in range(3)] in [generate_char]; [None] is the
    [IndexError] of [s[(col*3)+row]]. *)
Definition char_row (self : Braille3DGenerator) (s : str) (x_ z d_dy : num) (col : Z)
    (row : Z) (st : Mesh num * num) : option (Mesh num * num) :=
  let '(m, y_) := st in
  c ← s !! Z.to_nat (col * 3 + row);
  let m := if decide (c = 49) then extend m (generate_dot self (x_, y_, z)) else m in
  Some (m, fsub y_ d_dy).

(** The body of [for col in range(2)]. *)
Definition char_col (self : Braille3DGenerator) (s : str) (y y_ofs z d_dx d_dy : num)
    (col : Z) (st : Mesh num * num) : option (Mesh num * num) :=
  let '(m, x_) := st in
  let y_ := fadd y y_ofs in
  r ← for_each (range_Z 0 3) (char_row self s x_ z d_dy col) (m, y_);
  Some (r.1, fadd x_ d_dx).

(** [generate_char] *)
Definition generate_char (self : Braille3DGenerator) (dotstring : str) (xyz : Vtx num)
    : option (Mesh num) :=
  let '(x, y, z) := xyz in
  let d_dx := dot_dx self in
  let d_dy := dot_dy self in
  let c_dx := char_dx self in
  let c_dy := char_dy self in
  let s := dot_bits dotstring in
  let x_ofs := fmul fhalf (fsub c_dx (fmul d_dx (of_int (2 - 1)))) in
  let y_ofs := fsub c_dy (fmul fhalf (fsub c_dy (fmul d_dy (of_int (3 - 1))))) in
  let x_ := fadd x x_ofs in
  r ← for_each (range_Z 0 2) (char_col self s y y_ofs z d_dx d_dy) (([], []), x_);
  Some r.1.

(** The body of the loop of [generate_line]. *)
Definition line_char (self : Braille3DGenerator) (y z dx : num) (dotstring : str)
    (st : Mesh num * num) : option (Mesh num * num) :=
  let '(m, x) := st in
  m_ ← generate_char self dotstring (x, y, z);
  Some (extend m m_, fadd x dx).

(** [generate_line] *)
Definition generate_line (self : Braille3DGenerator) (dotstrings : list str) (xyz : Vtx num)
    : option (Mesh num) :=
  let '(x, y, z) := xyz in
  let dx := char_dx self in
  r ← for_each dotstrings (line_char self y z dx) (([], []), x);
  Some r.1.

(** The body of the loop of [generate_lines]. *)
Definition lines_line (self : Braille3DGenerator) (x z dy : num) (dotstrings : list str)
    (st : Mesh num * num) : option (Mesh num * num) :=
  let '(m, y) := st in
  m_ ← generate_line self dotstrings (x, y, z);
  Some (extend m m_, fsub y dy).

(** [generate_lines] *)
Definition generate_lines (self : Braille3DGenerator) (dotstrings_list : list (list str))
    (xyz : Vtx num) : option (Mesh num) :=
  let '(x, y, z) := xyz in
  let dy := char_dy self in
  let y := fadd y (fmul (of_int (Z.of_nat (length dotstrings_list) - 1)) dy) in
  r ← for_each dotstrings_list (lines_line self x z dy) (([], []), y);
  Some r.1.

(** The number of raised dots of a pattern, as [generate_char] reads it:
    the ['1'] among the first six characters that are ['0'] or ['1']. *)
Definition raised (dotstring : str) : nat :=
  length (filter (fun c => c = 49) (take 6 (dot_bits dotstring))).

(** ** braille.py: from the Braille string to the model

    The statements after the translation: the generator with the
    parameters of the script (ten vertices per ring, five rings in the
    dome; the lengths are floats and stay arguments), the dot patterns of
    the characters, the mesh of the one line, and the box under it ([max]
    is taken of the one length of the one line). [None] is an exception:
    the [KeyError] of [u2d[x]], or one of the generator. *)
Definition build_model (radius height taper d_dx d_dy c_dx c_dy : num)
    (unicode_dots : str) : option (Mesh num) :=
  bgen ← Braille3DGenerator_init radius height d_dx d_dy c_dx c_dy taper 10 5;
  maps ← get_conversion_maps;
  let u2d := maps.2 in
  line ← mapM (fun x => u2d !! [x]) unicode_dots;
  let lines := [line] in
  m ← generate_lines bgen lines (of_int 0, of_int 0, of_int 0);
  let '(box_vtx, box_tri) := generate_unit_cube in
  let N := Z.of_nat (length m.1) in
  let x_ := char_dx bgen in
  let y_ := char_dy bgen in
  let z_ := fhalf in
  let x_ := fmul x_ (of_int (foldr Z.max 0%Z ((fun l => Z.of_nat (length l)) <$> lines))) in
  let y_ := fmul y_ (of_int (Z.of_nat (length lines))) in
  let box_vtx := (fun v : Vtx num => let '(x, y, z) := v in
                    (fmul x x_, fmul y y_, fadd (fneg z_) (fmul z z_))) <$> box_vtx in
  let box_tri := shift N box_tri in
  Some (m.1 ++ box_vtx, m.2 ++ box_tri).

(** ** What the properties of the meshes are stated with *)

(** The unit dot a generator holds is a mesh. *)
Definition unit_well_formed (self : Braille3DGenerator) : Prop :=
  well_formed (unit_vtx self, unit_tri self).

(** The vertex with the index [i]: the indices of a triangle count the
    vertices of its mesh from [0]. *)
Definition vertex (vtx : list (Vtx num)) (i : Z) : option (Vtx num) :=
  if decide (0 ≤ i)%Z then vtx !! Z.to_nat i else None.

(** The three vertices that each triangle of a mesh names. *)
Definition corners (m : Mesh num)
    : list (option (Vtx num) * option (Vtx num) * option (Vtx num)) :=
  (fun t : Tri => let '(i, j, k) := t in (vertex m.1 i, vertex m.1 j, vertex m.1 k))
  <$> m.2.

(** A mesh with the vertices and the triangles of [k] dots. *)
Definition dots_mesh (self : Braille3DGenerator) (k : nat) (m : Mesh num) : Prop :=
  length m.1 = (k * length (unit_vtx self))%nat ∧
  length m.2 = (k * length (unit_tri self))%nat ∧
  well_formed m.

(** The [if] of [generate_char]: a dot more at [xyz] for the character ['1']. *)
Definition put_dot (self : Braille3DGenerator) (c : N) (xyz : Vtx num) (m : Mesh num)
    : Mesh num :=
  if decide (c = 49) then extend m (generate_dot self xyz) else m.

End Braille3D.

(** The number of raised dots of a line. *)
Definition raised_line (dotstrings : list str) : nat := sum_list_with raised dotstrings.

(** The number of dots of the Braille character [c]: the bits set among
    the six lowest of its offset in the block at U+2800. *)
Definition dot_count (c : N) : nat :=
  length (filter (fun k => N.testbit (c - 0x2800) k = true) (range 0 6)).

(** The arithmetic that forgets every value: with it the generators run
    and give the shape of a mesh, the number of its vertices and its
    triangles, without the coordinates. *)
#[export] Instance shape_only : PyNum unit := {|
  of_int := fun _ => tt; fhalf := tt; fpi := tt;
  fadd := fun _ _ => tt; fsub := fun _ _ => tt;
  fmul := fun _ _ => tt; fdiv := fun _ _ => tt;
  fneg := fun _ => tt; fsin := fun _ => tt; fcos := fun _ => tt
|}.

(** * Properties of the engine *)

(** Closes an equation between closed terms by evaluating both sides. *)
Ltac by_vm :=
  lazymatch goal with
  | |- ?l = ?r => exact (@eq_refl _ r <: l = r)
  end.

Lemma is_false_iff (a b : pystr) : is_ a b = false ↔ addr a ≠ addr b.
Proof. unfold is_. apply N.eqb_neq. Qed.

Lemma is_true_iff (a b : pystr) : is_ a b = true ↔ addr a = addr b.
Proof. unfold is_. apply N.eqb_eq. Qed.

(** The object of a literal is the end marker exactly when its value is
    the marker's. *)
Lemma str_obj_is_end (s : str) : is_ (str_obj s) FSM_end = bool_decide (s = py "|").
Proof.
  unfold is_, FSM_end, str_obj. cbn [addr]. case_bool_decide as Hs.
  - subst s. apply N.eqb_refl.
  - apply N.eqb_neq. intros [= E]. apply Hs. exact (encode_inj _ _ E).
Qed.

Lemma str_obj_not_end (s : str) : s ≠ py "|" → is_ (str_obj s) FSM_end = false.
Proof. intros Hs. rewrite str_obj_is_end. apply bool_decide_eq_false, Hs. Qed.

Lemma emit_text self tg st buf outq e :
  is_ e (end_ self) = false →
  emit self tg st (buf, outq) e = (buffer_add buf (chars e), outq).
Proof. intros He. unfold emit. rewrite He. reflexivity. Qed.

Lemma emit_end self tg st buf outq e :
  is_ e (end_ self) = true →
  emit self tg st (buf, outq) e = (None, outq ++ postprocess self buf tg st).
Proof. intros He. unfold emit. rewrite He. reflexivity. Qed.

(** An output list without the end marker only grows the buffer. *)
Lemma emit_texts self tg st out_ : ∀ buf outq,
  Forall (fun e => is_ e (end_ self) = false) out_ →
  foldl (emit self tg st) (buf, outq) out_
  = (foldl buffer_add buf (chars <$> out_), outq).
Proof.
  induction out_ as [|e out_ IH]; intros buf outq Hall; [reflexivity|].
  inversion Hall as [|? ? He Hrest]; subst.
  cbn [foldl fmap list_fmap]. rewrite emit_text by exact He. apply IH, Hrest.
Qed.

Lemma loop_nil self fuel c :
  in_seq c = [] → loop self fuel c = Ret (Some (trailing c), printed c).
Proof. intros E. destruct fuel; simpl; rewrite E; reflexivity. Qed.

Lemma loop_cons self fuel c in_tok rest :
  in_seq c = in_tok :: rest →
  loop self (S fuel) c =
    match body self c in_tok rest with
    | Continue c' => loop self fuel c'
    | Return_None p => Ret (None, p)
    end.
Proof. intros E. simpl. rewrite E. reflexivity. Qed.

(** A run that has returned returns the same with a larger bound. *)
Lemma loop_mono self : ∀ fuel fuel' c x,
  loop self fuel c = Ret x → (fuel ≤ fuel')%nat → loop self fuel' c = Ret x.
Proof.
  induction fuel as [|fuel IH]; intros fuel' c x Hrun Hle.
  - simpl in Hrun. destruct (in_seq c) eqn:E; [|discriminate].
    rewrite loop_nil by exact E. exact Hrun.
  - destruct fuel' as [|fuel']; [lia|].
    simpl in *. destruct (in_seq c) as [|in_tok rest]; [exact Hrun|].
    destruct (body self c in_tok rest) as [c'|p]; [|exact Hrun].
    apply IH; [exact Hrun | lia].
Qed.

Lemma process_mono self fuel fuel' inp x :
  process self fuel inp = Ret x → (fuel ≤ fuel')%nat → process self fuel' inp = Ret x.
Proof. apply loop_mono. Qed.

Lemma loop_never_raises self : ∀ fuel c, loop self fuel c ≠ Raise.
Proof.
  induction fuel as [|fuel IH]; intros c; simpl.
  - destruct (in_seq c); discriminate.
  - destruct (in_seq c) as [|in_tok rest]; [discriminate|].
    destruct (body self c in_tok rest); [apply IH | discriminate].
Qed.

(** ** The default hooks *)

(** C5, as the code has it: [postprocess] gives no record only for [None],
    the value of a buffer nothing was written to; every string, the empty
    one too, becomes exactly one record tagged with the current state. *)
Theorem postprocess_wraps_every_string (tg st : tag) :
  FSM_postprocess None tg st = [] ∧
  ∀ txt : str, FSM_postprocess (Some txt) tg st = [(txt, st)].
Proof. split; [|intros txt]; reflexivity. Qed.

(** C5, the claim as stated fails: the empty string is wrapped as a
    record like any other text. *)
Lemma postprocess_empty_string_gives_record :
  FSM_postprocess (Some []) lower_tag whitespace_tag = [([], whitespace_tag)] ∧
  FSM_postprocess (Some []) lower_tag whitespace_tag ≠ [].
Proof. split; [reflexivity | discriminate]. Qed.

(** ** The flush marker *)

(** C4: the end marker is told from text by identity, but the object of
    a literal ['|'] is the marker's own object. An entry of an output
    list that is a literal text joins the buffer only when its value is
    not ['|']; a literal ['|'] flushes the buffer through [postprocess]
    as the marker does, and does not reach the output. For literal text
    the test by identity is a test by value. *)
Theorem literal_bar_flushes (self : FSM) (tg st : tag) (buf : option str)
    (outq : list Token) (s : str) :
  end_ self = FSM_end →
  emit self tg st (buf, outq) (str_obj s)
  = if decide (s = py "|")
    then (None, outq ++ postprocess self buf tg st)
    else (buffer_add buf s, outq).
Proof.
  intros Hend. destruct (decide (s = py "|")) as [-> | Hs].
  - apply emit_end. rewrite Hend. apply is_true_iff. reflexivity.
  - rewrite emit_text by (rewrite Hend; apply str_obj_not_end, Hs). reflexivity.
Qed.

(** The machine that copies ['x'], ['|'] and ['y']: on ["x|y"] the bar
    cuts the output in two records and is lost, where text added to the
    buffer would give the one record ["x|y"]. *)
Lemma literal_bar_flushes_witness :
  end_ copying_machine = FSM_end ∧
  emit copying_machine None (Some (py "s")) (Some (py "x"), []) (str_obj (py "|"))
    = (None, [(py "x", Some (py "s"))]) ∧
  process copying_machine 3 (Text (py "x|y"))
    = Ret (Some [(py "x", Some (py "s")); (py "y", Some (py "s"))], []).
Proof.
  split; [reflexivity|]. split.
  - exact (literal_bar_flushes copying_machine None (Some (py "s")) (Some (py "x")) []
             (py "|") eq_refl).
  - by_vm.
Defined.

(** ** Misses *)

(** C6: a token with no transition in the table of the current state, and
    which [transform] declines, is dropped: one diagnostic is printed, the
    state, the buffer and the output queue stay as they are, and the run
    goes on with the rest of the queue. *)
Theorem miss_is_skipped (self : FSM) (c : config) (txt : str) (tg : tag)
    (rest : list Token) (tr : gmap str Transition) (fuel : nat) :
  in_seq c = (txt, tg) :: rest →
  states self !! state c = Some tr →
  tr !! txt = None →
  transform self txt tg (state c) = None →
  let c' := {| in_seq := rest; out_txt := out_txt c; out_seq := out_seq c;
               state := state c;
               printed := printed c ++ [Not_recognised txt (state c)] |} in
  body self c (txt, tg) rest = Continue c' ∧
  loop self (S fuel) c = loop self fuel c'.
Proof.
  intros Hin Hst Htr Htf c'.
  assert (Hb : body self c (txt, tg) rest = Continue c').
  { unfold body. rewrite Hst, Htr, Htf. reflexivity. }
  split; [exact Hb|].
  rewrite (loop_cons _ _ _ _ _ Hin), Hb. reflexivity.
Qed.

(** The tokeniser on ["a!b"]: ['!'] is in no class, is reported, and
    ["ab"] comes out as one lower-case run. *)
Lemma miss_is_skipped_witness :
  let self := BrailleTokeniser.new in
  let c := {| in_seq := [(py "!", None); (py "b", None)]; out_txt := Some (py "a");
              out_seq := []; state := lower_tag; printed := [] |} in
  loop self 2 c
  = Ret (Some [(py "ab", lower_tag)], [Not_recognised (py "!") lower_tag]).
Proof.
  intros self c.
  pose (tr := default ∅ (states self !! lower_tag)).
  refine (eq_trans (proj2 (miss_is_skipped self c (py "!") None [(py "b", None)] tr 1
                             eq_refl _ _ eq_refl)) _); by_vm.
Defined.

(** ** Undefined states *)

(** C3, as the code has it: the state is looked at when the loop is
    entered for the next token. When a transition has set a state that is
    not in the table and a token is still queued, [process] prints the
    diagnostic and returns [None]. *)
Theorem undefined_state_aborts (self : FSM) (c c' : config) (in_tok : Token)
    (rest : list Token) (fuel : nat) :
  in_seq c = in_tok :: rest →
  body self c in_tok rest = Continue c' →
  states self !! state c' = None →
  in_seq c' ≠ [] →
  loop self (S (S fuel)) c = Ret (None, printed c' ++ [Undefined_state (state c')]).
Proof.
  intros Hin Hbody Hundef Hmore.
  rewrite (loop_cons _ _ _ _ _ Hin), Hbody.
  destruct (in_seq c') as [|tok' rest'] eqn:Hin'; [congruence|].
  rewrite (loop_cons _ _ _ _ _ Hin'). unfold body. rewrite Hundef. reflexivity.
Qed.

(** [dead_end_machine] on ["xx"]: the first ['x'] leaves for ["gone"],
    the second is still queued, and the run is given up. *)
Lemma undefined_state_aborts_witness :
  process dead_end_machine 2 (Text (py "xx"))
  = Ret (None, [Undefined_state (Some (py "gone"))]).
Proof.
  apply (undefined_state_aborts dead_end_machine
           (initial dead_end_machine (Text (py "xx")))
           {| in_seq := [(py "x", None)]; out_txt := Some (py "x"); out_seq := [];
              state := Some (py "gone"); printed := [] |}
           (py "x", None) [(py "x", None)] 0).
  - reflexivity.
  - vm_compute. reflexivity.
  - vm_compute. reflexivity.
  - discriminate.
Defined.

(** C3, the claim as stated fails on the last token: [dead_end_machine]
    on ["x"] applies the transition to ["gone"], a state that is not in
    its table, and [process] returns an output list all the same, its
    record tagged with that state. *)
Lemma undefined_state_on_last_token_returns :
  states dead_end_machine !! Some (py "gone") = None ∧
  body dead_end_machine (initial dead_end_machine (Text (py "x"))) (py "x", None) []
  = Continue {| in_seq := []; out_txt := Some (py "x"); out_seq := [];
                state := Some (py "gone"); printed := [] |} ∧
  ∀ fuel, process dead_end_machine (S fuel) (Text (py "x"))
          = Ret (Some [(py "x", Some (py "gone"))], []).
Proof.
  split; [vm_compute; reflexivity|].
  split; [vm_compute; reflexivity|].
  intros fuel. apply (process_mono _ 1); [vm_compute; reflexivity | lia].
Qed.

(** * The conversion maps *)

Lemma get_conversion_maps_returns : get_conversion_maps = Some conversion_maps.
Proof. by_vm. Qed.

Lemma range_elem (a b c : N) : a ≤ c < b → c ∈ range a b.
Proof.
  intros Hc. unfold range. apply list_elem_of_fmap.
  exists (N.to_nat c). split; [lia|]. apply elem_of_seq. lia.
Qed.

Lemma braille_cp_in_range (c : N) : braille_cp c → c ∈ range 0x2800 0x2840.
Proof. unfold braille_cp. intros Hc. apply range_elem. lia. Qed.

Lemma is_bit_cases (c : N) : is_bit c = true → c = 48 ∨ c = 49.
Proof.
  unfold is_bit. intros H. apply orb_true_iff in H as [H | H]; apply N.eqb_eq in H; auto.
Qed.

(** Every entry of the first dict has a dot pattern as key and a Braille
    character as value, and the second dict maps the value back. *)
Lemma dots2unicode_entries (k v : str) :
  conversion_maps.1 !! k = Some v →
  is_dot_pattern k = true ∧ is_braille_char v = true ∧ conversion_maps.2 !! v = Some k.
Proof.
  intros Hkv. apply elem_of_map_to_list in Hkv.
  assert (Hall : forallb (fun kv : str * str =>
            is_dot_pattern kv.1 && is_braille_char kv.2
            && bool_decide (conversion_maps.2 !! kv.2 = Some kv.1))
            (map_to_list conversion_maps.1) = true) by (vm_compute; reflexivity).
  rewrite forallb_forall in Hall. apply list_elem_of_In, Hall in Hkv.
  cbn [fst snd] in Hkv. apply andb_true_iff in Hkv as [Hkv H3].
  apply andb_true_iff in Hkv as [H1 H2]. apply bool_decide_eq_true in H3. auto.
Qed.

Lemma unicode2dots_entries (v k : str) :
  conversion_maps.2 !! v = Some k →
  is_dot_pattern k = true ∧ is_braille_char v = true ∧ conversion_maps.1 !! k = Some v.
Proof.
  intros Hvk. apply elem_of_map_to_list in Hvk.
  assert (Hall : forallb (fun vk : str * str =>
            is_dot_pattern vk.2 && is_braille_char vk.1
            && bool_decide (conversion_maps.1 !! vk.2 = Some vk.1))
            (map_to_list conversion_maps.2) = true) by (vm_compute; reflexivity).
  rewrite forallb_forall in Hall. apply list_elem_of_In, Hall in Hvk.
  cbn [fst snd] in Hvk. apply andb_true_iff in Hvk as [Hvk H3].
  apply andb_true_iff in Hvk as [H1 H2]. apply bool_decide_eq_true in H3. auto.
Qed.

Lemma dots2unicode_total (k : str) :
  is_dot_pattern k = true → is_Some (conversion_maps.1 !! k).
Proof.
  intros Hk.
  destruct k as [|a [|b [|c [|sp [|d [|e [|f [|]]]]]]]]; try discriminate Hk.
  cbn [is_dot_pattern] in Hk.
  repeat (apply andb_true_iff in Hk as [Hk ?]).
  assert (sp = 32) as -> by (apply N.eqb_eq; assumption).
  repeat match goal with
         | H : is_bit _ = true |- _ => apply is_bit_cases in H as [-> | ->]
         end;
    vm_compute; eexists; reflexivity.
Qed.

Lemma unicode2dots_total (v : str) :
  is_braille_char v = true → is_Some (conversion_maps.2 !! v).
Proof.
  intros Hv. destruct v as [|c [|]]; try discriminate Hv.
  cbn [is_braille_char] in Hv. apply andb_true_iff in Hv as [Hlo Hhi].
  apply N.leb_le in Hlo, Hhi.
  assert (Hc : braille_cp c) by (unfold braille_cp; lia).
  apply braille_cp_in_range in Hc.
  assert (Hall : forallb (fun c : N =>
            match conversion_maps.2 !! [c] with Some _ => true | None => false end)
            (range 0x2800 0x2840) = true) by (vm_compute; reflexivity).
  rewrite forallb_forall in Hall. apply list_elem_of_In, Hall in Hc.
  destruct (conversion_maps.2 !! [c]); [eexists; reflexivity | discriminate].
Qed.

(** C9: [get_conversion_maps] returns two dicts of 64 entries each. The
    keys of the first are exactly the dot patterns ["abc def"], the keys
    of the second exactly the characters U+2800 to U+283F, and each dict
    maps a key to a value exactly when the other maps that value back to
    the key: they are bijections, inverse to each other. *)
Theorem conversion_maps_bijection :
  ∃ dots2unicode unicode2dots : gmap str str,
    get_conversion_maps = Some (dots2unicode, unicode2dots) ∧
    size dots2unicode = 64%nat ∧ size unicode2dots = 64%nat ∧
    (∀ k, is_Some (dots2unicode !! k) ↔ is_dot_pattern k = true) ∧
    (∀ v, is_Some (unicode2dots !! v) ↔ is_braille_char v = true) ∧
    (∀ k v, dots2unicode !! k = Some v ↔ unicode2dots !! v = Some k).
Proof.
  exists conversion_maps.1, conversion_maps.2.
  split; [rewrite get_conversion_maps_returns; destruct conversion_maps; reflexivity|].
  split; [vm_compute; reflexivity|].
  split; [vm_compute; reflexivity|].
  split; [|split].
  - intros k. split; [|apply dots2unicode_total].
    intros [v Hv]. apply (dots2unicode_entries k v Hv).
  - intros v. split; [|apply unicode2dots_total].
    intros [k Hk]. apply (unicode2dots_entries v k Hk).
  - intros k v. split; intros H.
    + apply (dots2unicode_entries k v H).
    + apply (unicode2dots_entries v k H).
Qed.

(** * The translator *)

(** ** The transition table *)

Lemma table_entries (txt : str) (t : Transition) :
  translator_table !! txt = Some t →
  Forall (fun e => is_ e FSM_end = false) t.1.2 ∧ t.2 = default_state.
Proof.
  intros Ht. apply elem_of_map_to_list in Ht.
  assert (Hall : forallb (fun kv : str * Transition =>
            forallb (fun e => negb (is_ e FSM_end)) kv.2.1.2
            && bool_decide (kv.2.2 = default_state))
            (map_to_list translator_table) = true) by (vm_compute; reflexivity).
  rewrite forallb_forall in Hall. apply list_elem_of_In, Hall in Ht.
  cbn [snd] in Ht. apply andb_true_iff in Ht as [Hout Hst].
  apply bool_decide_eq_true in Hst. split; [|exact Hst].
  apply Forall_forall. intros e He. rewrite forallb_forall in Hout.
  apply list_elem_of_In, Hout in He. apply negb_true_iff, He.
Qed.

(** No output list of the table holds a string with the marker's value
    either. *)
Lemma table_values (txt : str) (t : Transition) :
  translator_table !! txt = Some t →
  Forall (fun e => chars e ≠ chars FSM_end) t.1.2.
Proof.
  intros Ht. apply elem_of_map_to_list in Ht.
  assert (Hall : forallb (fun kv : str * Transition =>
            forallb (fun e => negb (bool_decide (chars e = chars FSM_end))) kv.2.1.2)
            (map_to_list translator_table) = true) by (vm_compute; reflexivity).
  rewrite forallb_forall in Hall. apply list_elem_of_In, Hall in Ht.
  cbn [snd] in Ht. apply Forall_forall. intros e He. rewrite forallb_forall in Ht.
  apply list_elem_of_In, Ht, negb_true_iff, bool_decide_eq_false in He. exact He.
Qed.

Lemma table_braille (c : N) :
  braille_cp c →
  translator_table !! [c] = Some (([], [str_obj [c]], default_state) : Transition).
Proof.
  intros Hc. apply braille_cp_in_range in Hc.
  assert (Hall : forallb (fun c : N =>
            bool_decide (translator_table !! [c]
                         = Some (([], [str_obj [c]], default_state) : Transition)))
            (range 0x2800 0x2840) = true) by (vm_compute; reflexivity).
  rewrite forallb_forall in Hall. apply list_elem_of_In, Hall in Hc.
  apply bool_decide_eq_true in Hc. exact Hc.
Qed.

Section TranslatorProperties.

Variable str_lower : str → str.

Lemma new_unfold : BrailleTranslator.new str_lower = Some (translator str_lower).
Proof. by_vm. Qed.

Lemma indicators :
  upper_indicator = Some [0x2820] ∧ number_indicator = Some [0x283C].
Proof. split; by_vm. Qed.

Lemma translator_states (st : tag) (tr : gmap str Transition) :
  states (translator str_lower) !! st = Some tr →
  st = default_state ∧ tr = translator_table.
Proof.
  cbn [states translator]. intros H. apply lookup_singleton_Some in H as [<- <-]. split; reflexivity.
Qed.

Lemma translator_default :
  states (translator str_lower) !! default_state = Some translator_table.
Proof. cbn [states translator]. apply lookup_singleton_eq. Qed.

(** Whatever the token, [transform] returns a transition: tokens to push,
    no output, and the state it was called in. *)
Lemma transform_shape (txt : str) (tg st : tag) :
  ∃ in_, transform (translator str_lower) txt tg st = Some (in_, [], st).
Proof.
  cbn [transform translator]. unfold BrailleTranslator.transform.
  repeat case_bool_decide; try (eexists; reflexivity).
  destruct (BrailleTranslator.split_fragment _ txt tg); eexists; reflexivity.
Qed.

(** One execution of the loop body in the translator: the state stays
    ["default"], nothing is flushed and nothing is printed, and the
    buffer grows by the output list of the transition, entry by entry. *)
Lemma translator_body_codes (c : config) (in_tok : Token) (rest : list Token) :
  state c = default_state → out_seq c = [] →
  ∃ c', body (translator str_lower) c in_tok rest = Continue c' ∧
        state c' = default_state ∧ out_seq c' = [] ∧ printed c' = printed c ∧
        out_txt c'
        = foldl buffer_add (out_txt c)
            (chars <$> applied_output (translator str_lower) c in_tok).
Proof.
  intros Hst Hout. unfold body, applied_output. rewrite Hst, translator_default.
  destruct in_tok as [txt tg].
  destruct (translator_table !! txt) as [[[in_ out_] st_]|] eqn:Htr.
  - destruct (table_entries _ _ Htr) as [Hall Hnext]. cbn [fst snd] in Hall, Hnext.
    subst st_.
    rewrite Hout, (emit_texts (translator str_lower) tg default_state out_ _ _ Hall).
    eexists. split; [reflexivity|]. cbn. auto.
  - destruct (transform_shape txt tg default_state) as [in_ ->].
    rewrite Hout. cbn [foldl]. eexists. split; [reflexivity|]. cbn. auto.
Qed.

Lemma buffer_of_codes (codes : list str) (st : tag) :
  single_record (foldl buffer_add None codes) st
  = match codes with
    | [] => []
    | l => [(concat l, st)]
    end.
Proof.
  destruct codes as [|o codes]; [reflexivity|]. cbn [foldl concat].
  assert (Hgen : ∀ (l : list str) (b : str),
            foldl buffer_add (Some b) l = Some (b ++ concat l)).
  { induction l as [|x l IH]; intros b; cbn [foldl concat].
    - rewrite app_nil_r. reflexivity.
    - unfold buffer_add at 2. rewrite IH, app_assoc. reflexivity. }
  unfold buffer_add at 2. rewrite Hgen. reflexivity.
Qed.

(** A run that returns, returns the codes of all the transitions it
    applied, in one record. *)
Lemma translator_loop_codes : ∀ (fuel : nat) (c : config) r p,
  state c = default_state → out_seq c = [] →
  loop (translator str_lower) fuel c = Ret (r, p) →
  r = Some (single_record
              (foldl buffer_add (out_txt c)
                 (chars <$> emitted (translator str_lower) fuel c))
              default_state).
Proof.
  induction fuel as [|fuel IH]; intros c r p Hst Hout Hrun.
  - simpl in Hrun. destruct (in_seq c) eqn:Hin; [|discriminate Hrun].
    injection Hrun as <- <-. cbn [emitted]. rewrite Hin. cbn [fmap list_fmap foldl].
    unfold trailing, single_record. rewrite Hout, Hst. destruct (out_txt c); reflexivity.
  - simpl in Hrun. cbn [emitted]. destruct (in_seq c) as [|in_tok rest] eqn:Hin.
    + injection Hrun as <- <-. cbn [fmap list_fmap foldl].
      unfold trailing, single_record. rewrite Hout, Hst. destruct (out_txt c); reflexivity.
    + destruct (translator_body_codes c in_tok rest Hst Hout)
        as (c' & Hb & Hst' & Hout' & _ & Hbuf).
      rewrite Hb in Hrun |- *. rewrite fmap_app, foldl_app, <- Hbuf.
      apply (IH c' r p Hst' Hout' Hrun).
Qed.

(** C10: no output list of the translator's table holds the end marker,
    [transform] returns transitions with an empty output list, and so no
    execution of the loop body ever flushes: the output queue stays
    empty, the state stays ["default"], and the buffer grows by the
    output list of the transition applied. Therefore a call of [process]
    that returns, returns no record when no transition had an output,
    and otherwise one record: the codes of all the transitions applied,
    in their order, joined, and tagged ["default"]. *)
Theorem translator_single_record :
  ∃ btrn, BrailleTranslator.new str_lower = Some btrn ∧
    (∀ st tr txt t, states btrn !! st = Some tr → tr !! txt = Some t →
       Forall (fun e => is_ e (end_ btrn) = false ∧ chars e ≠ chars (end_ btrn)) t.1.2) ∧
    (∀ txt tg st t, transform btrn txt tg st = Some t → t.1.2 = []) ∧
    (∀ c in_tok rest, state c = default_state → out_seq c = [] →
       ∃ c', body btrn c in_tok rest = Continue c' ∧
             state c' = default_state ∧ out_seq c' = [] ∧
             out_txt c'
             = foldl buffer_add (out_txt c) (chars <$> applied_output btrn c in_tok)) ∧
    (∀ fuel inp r p, process btrn fuel inp = Ret (r, p) →
       r = Some (match chars <$> emitted btrn fuel (initial btrn inp) with
                 | [] => []
                 | codes => [(concat codes, default_state)]
                 end)).
Proof.
  exists (translator str_lower). split; [apply new_unfold|]. split; [|split; [|split]].
  - intros st tr txt t Hst Ht. apply translator_states in Hst as [-> ->].
    apply Forall_and. split; [apply (table_entries txt t Ht) | apply (table_values txt t Ht)].
  - intros txt tg st t Ht. destruct (transform_shape txt tg st) as [in_ E].
    rewrite E in Ht. injection Ht as <-. reflexivity.
  - intros c in_tok rest Hst Hout.
    destruct (translator_body_codes c in_tok rest Hst Hout)
      as (c' & Hb & Hst' & Hout' & _ & Hbuf).
    exists c'. auto.
  - intros fuel inp r p Hrun.
    rewrite (translator_loop_codes fuel (initial (translator str_lower) inp) r p
               eq_refl eq_refl Hrun).
    change (out_txt (initial (translator str_lower) inp)) with (@None str).
    rewrite buffer_of_codes. destruct (chars <$> _); reflexivity.
Qed.

(** ** Braille passes through *)

Lemma buffer_add_chars (s : str) : ∀ buf,
  foldl buffer_add buf (chars_of s)
  = match s with [] => buf | _ => Some (default [] buf ++ s) end.
Proof.
  induction s as [|c s IH]; intros buf; [reflexivity|].
  cbn [chars_of fmap list_fmap foldl]. fold (chars_of s). rewrite IH.
  destruct s as [|c' s]; destruct buf as [b|]; cbn; try reflexivity.
  rewrite <- app_assoc. reflexivity.
Qed.

Lemma translator_braille_loop (s : str) : ∀ buf,
  Forall braille_cp s →
  loop (translator str_lower) (length s)
    {| in_seq := (fun t => (t, None)) <$> chars_of s; out_txt := buf;
       out_seq := []; state := default_state; printed := [] |}
  = Ret (Some (single_record (foldl buffer_add buf (chars_of s)) default_state), []).
Proof.
  induction s as [|c s IH]; intros buf Hall.
  - cbn. unfold trailing, single_record. cbn. destruct buf; reflexivity.
  - inversion Hall as [|? ? Hc Hs]; subst.
    cbn [length chars_of fmap list_fmap]. fold (chars_of s).
    erewrite loop_cons by reflexivity.
    unfold body. cbn [state out_txt out_seq printed].
    rewrite translator_default. cbv beta iota. rewrite (table_braille c Hc).
    cbn [foldl app].
    rewrite emit_text
      by (apply str_obj_not_end; intros [= ->]; unfold braille_cp in Hc; lia).
    cbn [chars str_obj]. apply IH, Hs.
Qed.

(** C7: a string of code points U+2800 to U+283F comes out of the
    translator as it went in. [process] returns within one execution of
    the loop body per character, prints nothing, and the text of its
    output (one record, none for the empty string) is the input. *)
Theorem braille_passes_unchanged (s : str) (fuel : nat) :
  Forall braille_cp s → (length s ≤ fuel)%nat →
  ∃ btrn out, BrailleTranslator.new str_lower = Some btrn ∧
    process btrn fuel (Text s) = Ret (Some out, []) ∧
    joined out = s.
Proof.
  intros Hall Hfuel.
  exists (translator str_lower),
         (single_record (foldl buffer_add None (chars_of s)) default_state).
  split; [apply new_unfold|]. split.
  - apply (process_mono _ (length s)); [|exact Hfuel].
    apply (translator_braille_loop s None Hall).
  - rewrite buffer_add_chars. destruct s; [reflexivity|].
    unfold joined. cbn. f_equal. apply app_nil_r.
Qed.

(** ** A token that is queued again as it is *)

Lemma stuck_loop (self : FSM) (c : config) (tok : Token) :
  in_seq c = [tok] → body self c tok [] = Continue c →
  ∀ fuel, loop self fuel c = Timeout.
Proof.
  intros Hin Hbody fuel. induction fuel as [|fuel IH].
  - simpl. rewrite Hin. reflexivity.
  - rewrite (loop_cons _ _ _ _ _ Hin), Hbody. exact IH.
Qed.

Lemma translator_stuck (txt : str) (tg : tag) :
  translator_table !! txt = None →
  transform (translator str_lower) txt tg default_state
    = Some ([(txt, tg)], [], default_state) →
  ∀ fuel, process (translator str_lower) fuel (Tokens [(txt, tg)]) = Timeout.
Proof.
  intros Htr Htf. apply (stuck_loop _ _ (txt, tg)); [reflexivity|].
  unfold body, initial. cbn [state out_txt out_seq printed in_seq].
  change (start_state (translator str_lower)) with default_state.
  rewrite translator_default. cbv beta iota. rewrite Htr, Htf. reflexivity.
Qed.

(** The fall-through of [transform] on a one-character text: with a tag
    other than the number and the upper-case tag, the token comes back as
    the only token to push. *)
Lemma transform_single_character (c : N) (tg : tag) :
  tg ≠ number_tag → tg ≠ upper_tag →
  transform (translator str_lower) [c] tg default_state
  = Some ([([c], tg)], [], default_state).
Proof.
  intros Hn Hu. cbn [transform translator]. unfold BrailleTranslator.transform.
  rewrite (bool_decide_eq_false_2 _ Hn), (bool_decide_eq_false_2 _ Hu).
  unfold BrailleTranslator.split_fragment, str_find, find_from, is_prefix.
  cbn [length take py fmap list_fmap String.list_ascii_of_string].
  repeat (rewrite bool_decide_eq_false_2 by discriminate).
  reflexivity.
Qed.

Lemma single_character_loops (c : N) (tg : tag) (fuel : nat) :
  translator_table !! [c] = None → tg ≠ number_tag → tg ≠ upper_tag →
  process (translator str_lower) fuel (Tokens [([c], tg)]) = Timeout.
Proof.
  intros Htr Hn Hu. apply translator_stuck; [exact Htr|].
  apply transform_single_character; assumption.
Qed.

(** C2 fails on the code: for a one-character text that is not in the
    table and whose tag is neither the number nor the upper-case tag,
    [transform] falls through to the split into characters, which is the
    token it was given. [process] pops and pushes that token for ever:
    whatever the bound, the run of [BrailleTranslator().process("!")]
    reaches it, and so does the driver's translation of [";"], which the
    tokeniser hands over as a punctuation run. *)
Theorem translator_loops_on_unknown_character (fuel : nat) :
  ∃ btrn, BrailleTranslator.new str_lower = Some btrn ∧
    transform btrn (py "!") None default_state
      = Some ([(py "!", None)], [], default_state) ∧
    process btrn fuel (Text (py "!")) = Timeout ∧
    process BrailleTokeniser.new 1 (Text (py ";"))
      = Ret (Some [(py ";", punctuation_tag)], []) ∧
    process btrn fuel (Tokens [(py ";", punctuation_tag)]) = Timeout ∧
    BrailleTranslator.translate str_lower fuel (py ";") = Timeout.
Proof.
  assert (Htok : process BrailleTokeniser.new 1 (Text (py ";"))
                 = Ret (Some [(py ";", punctuation_tag)], [])) by by_vm.
  assert (Hloop : ∀ n, process (translator str_lower) n
                         (Tokens [(py ";", punctuation_tag)]) = Timeout).
  { intros n. apply (single_character_loops 59); [by_vm | discriminate | discriminate]. }
  exists (translator str_lower). split; [apply new_unfold|].
  split; [apply (transform_single_character 33); discriminate|].
  split; [|split; [exact Htok|split; [apply Hloop|]]].
  - apply (single_character_loops 33); [by_vm | discriminate | discriminate].
  - unfold BrailleTranslator.translate. rewrite new_unfold.
    destruct fuel as [|fuel]; [reflexivity|].
    rewrite (process_mono _ 1 (S fuel) _ _ Htok) by lia.
    cbv beta iota. rewrite Hloop. reflexivity.
Qed.

(** ** Letters and digits through the driver *)

Lemma translate_mono (fuel fuel' : nat) (s t : str) :
  BrailleTranslator.translate str_lower fuel s = Ret t → (fuel ≤ fuel')%nat →
  BrailleTranslator.translate str_lower fuel' s = Ret t.
Proof.
  unfold BrailleTranslator.translate. intros Hrun Hle.
  destruct (BrailleTranslator.new str_lower) as [btrn|]; [|discriminate].
  destruct (process BrailleTokeniser.new fuel (Text s))
    as [[[tokens|] p]| |] eqn:E1; try discriminate.
  rewrite (process_mono _ _ _ _ _ E1 Hle).
  destruct (process btrn fuel (Tokens tokens))
    as [[[[|tok out]|] p2]| |] eqn:E2; try discriminate.
  rewrite (process_mono _ _ _ _ _ E2 Hle). exact Hrun.
Qed.

(** C8: an upper-case letter is translated to the upper-case indicator
    followed by the translation of the lower-case letter. *)
Theorem upper_case_rule (L : N) (fuel : nat) :
  97 ≤ L ≤ 122 → (1 ≤ fuel)%nat →
  ∃ ind code, upper_indicator = Some ind ∧
    BrailleTranslator.translate str_lower fuel [L] = Ret code ∧
    BrailleTranslator.translate str_lower fuel (ascii_upper [L]) = Ret (ind ++ code).
Proof.
  intros HL Hfuel.
  assert (Hin : L ∈ range 97 123) by (apply range_elem; lia).
  assert (Hall : forallb (fun L : N =>
            match BrailleTranslator.translate str_lower 1 [L] with
            | Ret code =>
                bool_decide (BrailleTranslator.translate str_lower 1 (ascii_upper [L])
                             = Ret ([0x2820] ++ code))
            | _ => false
            end) (range 97 123) = true) by (vm_compute; reflexivity).
  rewrite forallb_forall in Hall. apply list_elem_of_In, Hall in Hin.
  destruct (BrailleTranslator.translate str_lower 1 [L]) as [code| |] eqn:Hlow;
    [|discriminate Hin|discriminate Hin].
  apply bool_decide_eq_true in Hin.
  exists [0x2820], code. split; [apply indicators|].
  split; [exact (translate_mono 1 fuel _ _ Hlow Hfuel)
         | exact (translate_mono 1 fuel _ _ Hin Hfuel)].
Qed.

(** C1 fails on the code: a single digit is a key of the table, so the
    token never reaches [transform], the only place that puts the number
    indicator in. The translation of the digit at position [i] of
    ["1234567890"] is the translation of the letter at position [i] of
    ["abcdefghij"], with no indicator before it; the translator gives the
    same for the digit as a token with the number tag. *)
Theorem single_digit_gets_no_indicator (i fuel : nat) :
  (i < 10)%nat → (1 ≤ fuel)%nat →
  ∃ d l ind code,
    py "1234567890" !! i = Some d ∧ py "abcdefghij" !! i = Some l ∧
    number_indicator = Some ind ∧
    BrailleTranslator.translate str_lower fuel [l] = Ret code ∧
    BrailleTranslator.translate str_lower fuel [d] = Ret code ∧
    BrailleTranslator.translate str_lower fuel [d] ≠ Ret (ind ++ code) ∧
    process (translator str_lower) fuel (Tokens [([d], number_tag)])
      = Ret (Some [(code, default_state)], []).
Proof.
  intros Hi Hfuel.
  assert (Hin : i ∈ seq 0 10) by (apply elem_of_seq; lia).
  assert (Hall : forallb (fun i : nat =>
            match py "1234567890" !! i, py "abcdefghij" !! i with
            | Some d, Some l =>
                match BrailleTranslator.translate str_lower 1 [l] with
                | Ret code =>
                    bool_decide (BrailleTranslator.translate str_lower 1 [d] = Ret code)
                    && bool_decide
                         (process (translator str_lower) 1 (Tokens [([d], number_tag)])
                          = Ret (Some [(code, default_state)], []))
                | _ => false
                end
            | _, _ => false
            end) (seq 0 10) = true) by (vm_compute; reflexivity).
  rewrite forallb_forall in Hall. apply list_elem_of_In, Hall in Hin.
  destruct (py "1234567890" !! i) as [d|]; [|discriminate Hin].
  destruct (py "abcdefghij" !! i) as [l|]; [|discriminate Hin].
  destruct (BrailleTranslator.translate str_lower 1 [l]) as [code| |] eqn:Hl;
    [|discriminate Hin|discriminate Hin].
  apply andb_true_iff in Hin as [Hd1 Htok].
  apply bool_decide_eq_true in Hd1, Htok.
  exists d, l, [0x283C], code. split; [reflexivity|]. split; [reflexivity|].
  split; [apply indicators|].
  split; [exact (translate_mono 1 fuel _ _ Hl Hfuel)|].
  assert (Hd : BrailleTranslator.translate str_lower fuel [d] = Ret code)
    by exact (translate_mono 1 fuel _ _ Hd1 Hfuel).
  split; [exact Hd|]. split.
  - rewrite Hd. intros [= Heq]. apply (f_equal length) in Heq. cbn in Heq. lia.
  - exact (process_mono _ 1 fuel _ _ Htok Hfuel).
Qed.

End TranslatorProperties.

(** * The theorems at concrete inputs, with [str.lower] on ASCII *)

(** The cells U+2801, U+2800 and U+283F. *)
Lemma braille_passes_unchanged_witness :
  ∃ btrn out, BrailleTranslator.new ascii_lower = Some btrn ∧
    process btrn 3 (Text [0x2801; 0x2800; 0x283F]) = Ret (Some out, []) ∧
    joined out = [0x2801; 0x2800; 0x283F].
Proof.
  apply (braille_passes_unchanged ascii_lower [0x2801; 0x2800; 0x283F] 3).
  - repeat constructor; unfold braille_cp; lia.
  - simpl. lia.
Defined.

(** ['a'] and ['A']. *)
Lemma upper_case_rule_witness :
  ∃ ind code, upper_indicator = Some ind ∧
    BrailleTranslator.translate ascii_lower 1 (py "a") = Ret code ∧
    BrailleTranslator.translate ascii_lower 1 (py "A") = Ret (ind ++ code).
Proof. apply (upper_case_rule ascii_lower 97 1); lia. Defined.

(** ['5'] and ['e'], position 4. *)
Lemma single_digit_gets_no_indicator_witness :
  ∃ d l ind code,
    py "1234567890" !! 4%nat = Some d ∧ py "abcdefghij" !! 4%nat = Some l ∧
    number_indicator = Some ind ∧
    BrailleTranslator.translate ascii_lower 1 [l] = Ret code ∧
    BrailleTranslator.translate ascii_lower 1 [d] = Ret code ∧
    BrailleTranslator.translate ascii_lower 1 [d] ≠ Ret (ind ++ code) ∧
    process (translator ascii_lower) 1 (Tokens [([d], number_tag)])
      = Ret (Some [(code, default_state)], []).
Proof. apply (single_digit_gets_no_indicator ascii_lower 4 1); lia. Defined.

(** The runs of ["Hi there."] as the tokeniser makes them: the ten codes
    of the transitions applied come out as one record. *)
Lemma translator_single_record_witness :
  process (translator ascii_lower) 20
    (Tokens [(py "Hi", mixed_tag); (py " ", whitespace_tag);
             (py "there", lower_tag); (py ".", punctuation_tag)])
  = Ret (Some [([0x2820; 0x2813; 0x280A; 0x2800; 0x281E; 0x2813; 0x2811; 0x2817;
                 0x2811; 0x2832], default_state)], []) ∧
  chars <$> emitted (translator ascii_lower) 20
              (initial (translator ascii_lower)
                 (Tokens [(py "Hi", mixed_tag); (py " ", whitespace_tag);
                          (py "there", lower_tag); (py ".", punctuation_tag)]))
  = [[0x2820]; [0x2813]; [0x280A]; [0x2800]; [0x281E]; [0x2813]; [0x2811]; [0x2817];
     [0x2811]; [0x2832]] ∧
  Some [([0x2820; 0x2813; 0x280A; 0x2800; 0x281E; 0x2813; 0x2811; 0x2817;
          0x2811; 0x2832], default_state)]
  = Some (match chars <$> emitted (translator ascii_lower) 20
                    (initial (translator ascii_lower)
                       (Tokens [(py "Hi", mixed_tag); (py " ", whitespace_tag);
                                (py "there", lower_tag); (py ".", punctuation_tag)])) with
          | [] => []
          | codes => [(concat codes, default_state)]
          end).
Proof.
  destruct (translator_single_record ascii_lower) as (btrn & Hnew & _ & _ & _ & Hrun).
  rewrite new_unfold in Hnew. injection Hnew as <-.
  assert (E : process (translator ascii_lower) 20
      (Tokens [(py "Hi", mixed_tag); (py " ", whitespace_tag);
               (py "there", lower_tag); (py ".", punctuation_tag)])
      = Ret (Some [([0x2820; 0x2813; 0x280A; 0x2800; 0x281E; 0x2813; 0x2811;
                     0x2817; 0x2811; 0x2832], default_state)], [])) by by_vm.
  split; [exact E|]. split; [by_vm|]. exact (Hrun _ _ _ _ E).
Defined.

(** * Further properties of the code *)

(** * More on the engine *)

Lemma loop_final (self : FSM) : ∀ fuel c,
  loop self fuel c
  = match final self fuel c with
    | Ret (inl c') => Ret (Some (trailing c'), printed c')
    | Ret (inr p) => Ret (None, p)
    | Raise => Raise
    | Timeout => Timeout
    end.
Proof.
  induction fuel as [|fuel IH]; intros c; simpl.
  - destruct (in_seq c); reflexivity.
  - destruct (in_seq c) as [|in_tok rest]; [reflexivity|].
    destruct (body self c in_tok rest); [apply IH | reflexivity].
Qed.

Lemma final_queue_empty (self : FSM) : ∀ fuel c c1,
  final self fuel c = Ret (inl c1) → in_seq c1 = [].
Proof.
  induction fuel as [|fuel IH]; intros c c1; simpl.
  - destruct (in_seq c) eqn:E; [|discriminate]. intros [= <-]. exact E.
  - destruct (in_seq c) as [|in_tok rest] eqn:E; [intros [= <-]; exact E|].
    destruct (body self c in_tok rest); [apply IH | discriminate].
Qed.

(** The loop body does not look at the queue beyond the token it was
    entered with: what lies behind [rest] is carried along. *)
Lemma body_frame (self : FSM) (c : config) (in_tok : Token) (rest q2 q : list Token) :
  body self (with_queue c q) in_tok (rest ++ q2)
  = match body self c in_tok rest with
    | Continue c' => Continue (with_queue c' (in_seq c' ++ q2))
    | Return_None p => Return_None p
    end.
Proof.
  unfold body. cbn [with_queue state out_txt out_seq printed].
  destruct (states self !! state c) as [tr|]; [|reflexivity].
  destruct in_tok as [txt tg].
  destruct (match tr !! txt with Some r => Some r | None => _ end)
    as [[[in_ out_] state_]|]; [|reflexivity].
  destruct (foldl _ _ out_) as [buf outq]. unfold with_queue. cbn.
  rewrite app_assoc. reflexivity.
Qed.

(** X1: processing a queue [q1 ++ q2] is processing [q1] to its end, the
    tokens its transitions push included, and then [q2] with the locals
    that [q1] left: what a transition pushes is resolved before any token
    queued behind it is touched. *)
Theorem queue_concatenation (self : FSM) (q2 : list Token) : ∀ (n m : nat) (c c1 : config) x,
  final self n c = Ret (inl c1) →
  loop self m (with_queue c1 q2) = Ret x →
  loop self (n + m) (with_queue c (in_seq c ++ q2)) = Ret x.
Proof.
  induction n as [|n IH]; intros m c c1 x Hq1 Hq2.
  - simpl in Hq1. destruct (in_seq c) eqn:E; [|discriminate].
    injection Hq1 as <-. exact Hq2.
  - simpl in Hq1. destruct (in_seq c) as [|in_tok rest] eqn:E.
    + injection Hq1 as <-. apply (loop_mono _ m); [exact Hq2 | lia].
    + cbn [Nat.add app]. erewrite loop_cons by reflexivity.
      rewrite body_frame.
      destruct (body self c in_tok rest) as [c'|p]; [|discriminate].
      apply (IH m c' c1 x Hq1 Hq2).
Qed.

(** The tokeniser on ["ab"] and then [" c"]. *)
Lemma queue_concatenation_witness :
  loop BrailleTokeniser.new (2 + 2)
    (initial BrailleTokeniser.new (Text (py "ab c")))
  = Ret (Some [(py "ab", lower_tag); (py " ", whitespace_tag); (py "c", lower_tag)], []).
Proof.
  apply (queue_concatenation BrailleTokeniser.new
           [(py " ", None); (py "c", None)] 2 2
           (initial BrailleTokeniser.new (Text (py "ab")))
           {| in_seq := []; out_txt := Some (py "ab"); out_seq := [];
              state := lower_tag; printed := [] |}); by_vm.
Defined.

(** ** add_state *)

Lemma foldl_dict_update_lookup {V} (k : str) (maps : list (gmap str V)) : ∀ t : gmap str V,
  foldl dict_update t maps !! k
  = foldl (fun acc m => match m !! k with Some v => Some v | None => acc end)
          (t !! k) maps.
Proof.
  induction maps as [|m maps IH]; intros t; [reflexivity|].
  cbn [foldl]. rewrite IH. f_equal. unfold dict_update.
  rewrite lookup_union. destruct (m !! k), (t !! k); reflexivity.
Qed.

(** X2: [add_state] gives the state [name] the merge of the transition
    maps, in which a later map of the list overrides an earlier one on a
    key they share; a state of that name is replaced, every other state,
    the start state, the marker and the hooks are left as they were. *)
Theorem add_state_merges (self : FSM) (name : tag) (maps : list (gmap str Transition)) :
  (∃ t, states (add_state self name maps) !! name = Some t ∧
        ∀ k, t !! k = last_binding k maps) ∧
  (∀ other, other ≠ name →
     states (add_state self name maps) !! other = states self !! other) ∧
  start_state (add_state self name maps) = start_state self ∧
  end_ (add_state self name maps) = end_ self ∧
  transform (add_state self name maps) = transform self ∧
  postprocess (add_state self name maps) = postprocess self.
Proof.
  split; [|split; [|repeat split]].
  - eexists. split; [apply lookup_insert_eq|].
    intros k. rewrite foldl_dict_update_lookup. reflexivity.
  - intros other Hne. cbn [states add_state]. apply lookup_insert_ne. congruence.
Qed.

(** Two maps that share the key ["a"]: the second one's transition is
    kept, and the state the machine had before is still there. *)
Lemma add_state_merges_witness :
  let m1 : gmap str Transition := {[ py "a" := ([], [], lower_tag) ]} in
  let m2 : gmap str Transition := {[ py "a" := ([], [], upper_tag) ]} in
  let self := add_state (add_state FSM_init mixed_tag [m1]) lower_tag [m1; m2] in
  (states self !! lower_tag) ≫= (.!! py "a") = Some ([], [], upper_tag) ∧
  states self !! mixed_tag = Some m1.
Proof.
  intros m1 m2 self. split.
  - destruct (add_state_merges (add_state FSM_init mixed_tag [m1]) lower_tag [m1; m2])
      as [(t & Ht & Hk) _].
    fold self in Ht. rewrite Ht. cbn. rewrite Hk. by_vm.
  - destruct (add_state_merges (add_state FSM_init mixed_tag [m1]) lower_tag [m1; m2])
      as (_ & Hother & _).
    unfold self. rewrite Hother by discriminate. by_vm.
Defined.

(** * The tokeniser *)

Lemma tokeniser_end : end_ BrailleTokeniser.new = FSM_end.
Proof. by_vm. Qed.

Lemma tokeniser_postprocess : postprocess BrailleTokeniser.new = FSM_postprocess.
Proof. reflexivity. Qed.

Lemma tokeniser_transform : transform BrailleTokeniser.new = FSM_transform.
Proof. reflexivity. Qed.

Lemma tokeniser_start : start_state BrailleTokeniser.new = whitespace_tag.
Proof. reflexivity. Qed.

Lemma tokeniser_state_defined (st : tag) :
  st ∈ tokeniser_states →
  states BrailleTokeniser.new !! st = Some (tokeniser_table st).
Proof.
  intros Hst. unfold tokeniser_states in Hst.
  repeat (apply elem_of_cons in Hst as [-> | Hst]; [by_vm|]).
  apply elem_of_nil in Hst. destruct Hst.
Qed.

Lemma tokeniser_rule (st : tag) (c : N) :
  st ∈ tokeniser_states → c ∈ recognised → tokeniser_step_ok st c = true.
Proof.
  intros Hst Hc.
  assert (Hall : forallb (fun st => forallb (tokeniser_step_ok st) recognised)
                   tokeniser_states = true) by (vm_compute; reflexivity).
  rewrite forallb_forall in Hall. apply list_elem_of_In, Hall in Hst.
  rewrite forallb_forall in Hst. apply Hst, list_elem_of_In, Hc.
Qed.

(** The keys of the seven tables are recognised characters. *)
Lemma tokeniser_keys (st : tag) (txt : str) :
  st ∈ tokeniser_states → is_Some (tokeniser_table st !! txt) →
  ∃ c, txt = [c] ∧ c ∈ recognised.
Proof.
  intros Hst [t Ht]. apply elem_of_map_to_list in Ht.
  assert (Hall : forallb (fun st =>
            forallb (fun kv : str * Transition =>
              match kv.1 with [c] => is_recognised c | _ => false end)
              (map_to_list (tokeniser_table st))) tokeniser_states = true)
    by (vm_compute; reflexivity).
  rewrite forallb_forall in Hall. apply list_elem_of_In, Hall in Hst.
  rewrite forallb_forall in Hst. apply list_elem_of_In, Hst in Ht. cbn [fst] in Ht.
  destruct txt as [|c [|]]; try discriminate Ht.
  exists c. split; [reflexivity|]. apply bool_decide_eq_true in Ht. exact Ht.
Qed.

Lemma joined_snoc (out : list Token) (t : str) (tg : tag) :
  joined (out ++ [(t, tg)]) = joined out ++ t.
Proof.
  unfold joined. rewrite fmap_app, concat_app. cbn. rewrite app_nil_r. reflexivity.
Qed.

Lemma TlRel_same_kind (st st' : tag) (tags : list tag) :
  kind_of st' = kind_of st →
  TlRel may_follow st tags → TlRel may_follow st' tags.
Proof.
  intros Hk Htl. destruct Htl as [|b l Hb]; constructor.
  unfold may_follow in *. rewrite Hk. exact Hb.
Qed.

(** No character of the five classes has the value of the end marker. *)
Lemma recognised_not_end (ch : N) : ch ∈ recognised → [ch] ≠ py "|".
Proof.
  intros Hch [= ->].
  assert (Hno : bool_decide (124 ∈ recognised) = false) by (vm_compute; reflexivity).
  apply bool_decide_eq_false in Hno. exact (Hno Hch).
Qed.

(** One execution of the loop body of the tokeniser on a one-character
    token. *)
Lemma tokeniser_body (c : config) (ch : N) (rest : list Token) :
  tokeniser_inv c →
  ∃ c', body BrailleTokeniser.new c ([ch], None) rest = Continue c' ∧
        in_seq c' = rest ∧ tokeniser_inv c' ∧
        flat c' = flat c ++ (if is_recognised ch then [ch] else []) ∧
        missed <$> printed c'
        = (missed <$> printed c) ++ (if is_recognised ch then [] else [Some [ch]]).
Proof.
  intros (Hst & Hrec & Hbuf & Hsort & Htl).
  unfold body. rewrite (tokeniser_state_defined _ Hst). cbv beta iota.
  destruct (is_recognised ch) eqn:Hch.
  - apply bool_decide_eq_true in Hch.
    pose proof (tokeniser_rule _ _ Hst Hch) as Hok. unfold tokeniser_step_ok in Hok.
    destruct (tokeniser_table (state c) !! [ch]) as [[[in_ out_] st']|];
      [|discriminate Hok].
    apply andb_true_iff in Hok as [Hok Hcase].
    apply andb_true_iff in Hok as [Hok Hcls].
    apply andb_true_iff in Hok as [Hin Hst'].
    apply bool_decide_eq_true in Hin, Hst', Hcls. subst in_.
    apply orb_true_iff in Hcase as [Hkeep | Hflush].
    + apply andb_true_iff in Hkeep as [Hkeep Hnws].
      apply andb_true_iff in Hkeep as [Hkeep Hkind].
      apply andb_true_iff in Hkeep as [Hout Hincl].
      apply bool_decide_eq_true in Hout, Hkind. subst out_.
      apply negb_true_iff, bool_decide_eq_false in Hnws.
      rewrite forallb_forall in Hincl.
      cbn [foldl].
      rewrite emit_text
        by (rewrite tokeniser_end; apply str_obj_not_end, recognised_not_end, Hch).
      cbn [chars str_obj app].
      eexists. split; [reflexivity|]. cbn [in_seq state out_seq out_txt printed].
      split; [reflexivity|]. split; [|split].
      * split; [exact Hst'|]. split; [exact Hrec|]. split; [|split].
        -- unfold buffer_add, run_of. split; [|split].
           ++ destruct (out_txt c); [apply not_eq_sym, app_cons_not_nil | discriminate].
           ++ destruct (out_txt c) as [b|].
              ** apply Forall_app. split; [|constructor; [exact Hcls|constructor]].
                 destruct Hbuf as (_ & Hb & _). eapply Forall_impl; [exact Hb|].
                 intros x Hx. cbn in Hx.
                 apply list_elem_of_In, Hincl, bool_decide_eq_true in Hx. exact Hx.
              ** constructor; [exact Hcls|constructor].
           ++ intros E. destruct (Hnws E).
        -- exact Hsort.
        -- exact (TlRel_same_kind _ _ _ Hkind Htl).
      * unfold flat. cbn [out_seq out_txt].
        destruct (out_txt c); cbv [buffer_add from_option id];
          rewrite ?app_nil_r, <- ?app_assoc; reflexivity.
      * rewrite app_nil_r. reflexivity.
    + apply andb_true_iff in Hflush as [Hout Hfol].
      apply bool_decide_eq_true in Hout, Hfol. subst out_.
      cbn [foldl]. rewrite emit_end by (rewrite tokeniser_end; reflexivity).
      rewrite emit_text
        by (rewrite tokeniser_end; apply str_obj_not_end, recognised_not_end, Hch).
      rewrite tokeniser_postprocess. cbn [chars str_obj app buffer_add].
      eexists. split; [reflexivity|].
      unfold tokeniser_inv, flat. cbn [in_seq state out_seq out_txt printed default].
      assert (Hnew : run_of st' [ch]).
      { split; [discriminate|]. split; [constructor; [exact Hcls|constructor]|].
        reflexivity. }
      split; [reflexivity|]. split; [|split].
      * split; [exact Hst'|]. destruct (out_txt c) as [b|] eqn:Eb; cbn [FSM_postprocess].
        -- split; [|split; [exact Hnew|]].
           { apply Forall_app. split; [exact Hrec|].
             constructor; [|constructor]. split; [exact Hst | exact Hbuf]. }
           rewrite fmap_app. cbn [fmap list_fmap snd]. split.
           ++ apply Sorted_snoc; assumption.
           ++ apply (TlRel_cons may_follow st' (state c)). exact Hfol.
        -- rewrite app_nil_r. rewrite Hbuf in *. cbn.
           split; [constructor|]. split; [exact Hnew|]. split; constructor.
      * destruct (out_txt c) as [b|]; cbn [FSM_postprocess];
          rewrite ?joined_snoc, ?app_nil_r; cbv [buffer_add from_option id];
          rewrite <- ?app_assoc; reflexivity.
      * rewrite app_nil_r. reflexivity.
  - apply bool_decide_eq_false in Hch.
    destruct (tokeniser_table (state c) !! [ch]) as [t|] eqn:Etr.
    { destruct (tokeniser_keys (state c) [ch] Hst (mk_is_Some _ _ Etr)) as (c0 & [= <-] & Hc0).
      destruct (Hch Hc0). }
    rewrite tokeniser_transform. cbn [FSM_transform].
    eexists. split; [reflexivity|]. cbn [in_seq state out_seq out_txt printed].
    split; [reflexivity|]. split; [|split].
    + split; [exact Hst|]. split; [exact Hrec|]. split; [exact Hbuf|].
      split; [exact Hsort | exact Htl].
    + unfold flat. cbn. rewrite app_nil_r. reflexivity.
    + rewrite fmap_app. reflexivity.
Qed.

Lemma loop_deterministic (self : FSM) (fuel fuel' : nat) (c : config) x y :
  loop self fuel c = Ret x → loop self fuel' c = Ret y → x = y.
Proof.
  intros Hx Hy.
  apply (loop_mono _ _ (Nat.max fuel fuel')) in Hx; [|lia].
  apply (loop_mono _ _ (Nat.max fuel fuel')) in Hy; [|lia].
  congruence.
Qed.

Lemma tokeniser_final (s : str) : ∀ c,
  in_seq c = (fun t => (t, None)) <$> chars_of s → tokeniser_inv c →
  ∃ c', final BrailleTokeniser.new (length s) c = Ret (inl c') ∧
        tokeniser_inv c' ∧
        flat c' = flat c ++ filter (fun ch => ch ∈ recognised) s ∧
        missed <$> printed c'
        = (missed <$> printed c)
          ++ ((fun ch => Some [ch]) <$> filter (fun ch => ch ∉ recognised) s).
Proof.
  induction s as [|ch s IH]; intros c Hin Hinv.
  - exists c. cbn. rewrite Hin. cbn. rewrite !app_nil_r. auto.
  - cbn [chars_of fmap list_fmap] in Hin. fold (chars_of s) in Hin.
    destruct (tokeniser_body c ch ((fun t => (t, None)) <$> chars_of s) Hinv)
      as (c1 & Hbody & Hin1 & Hinv1 & Hflat1 & Hp1).
    destruct (IH c1 Hin1 Hinv1) as (c' & Hfin & Hinv' & Hflat' & Hp').
    exists c'. cbn [length final]. rewrite Hin, Hbody.
    split; [exact Hfin|]. split; [exact Hinv'|].
    rewrite Hflat', Hflat1, Hp', Hp1. unfold is_recognised.
    destruct (decide (ch ∈ recognised)) as [Hch|Hch].
    + rewrite (bool_decide_eq_true_2 _ Hch).
      rewrite (filter_cons_True (fun ch => ch ∈ recognised)) by exact Hch.
      rewrite (filter_cons_False (fun ch => ch ∉ recognised))
        by (intros Hn; exact (Hn Hch)).
      rewrite app_nil_r, <- app_assoc. auto.
    + rewrite (bool_decide_eq_false_2 _ Hch).
      rewrite (filter_cons_False (fun ch => ch ∈ recognised)) by exact Hch.
      rewrite (filter_cons_True (fun ch => ch ∉ recognised)) by exact Hch.
      rewrite app_nil_r, fmap_cons, <- app_assoc. auto.
Qed.

Lemma tokeniser_initial (s : str) : tokeniser_inv (initial BrailleTokeniser.new (Text s)).
Proof.
  unfold tokeniser_inv, initial. cbn [state out_seq out_txt].
  split; [rewrite tokeniser_start; unfold tokeniser_states; set_solver|].
  split; [constructor|]. split; [reflexivity|]. split; constructor.
Qed.

(** What a run of the tokeniser on a string comes to. *)
Lemma tokeniser_run (s : str) :
  ∃ out p, process BrailleTokeniser.new (length s) (Text s) = Ret (Some out, p) ∧
    joined out = filter (fun ch => ch ∈ recognised) s ∧
    missed <$> p = (fun ch => Some [ch]) <$> filter (fun ch => ch ∉ recognised) s ∧
    Forall good_record out ∧ Sorted may_follow (out.*2).
Proof.
  destruct (tokeniser_final s (initial BrailleTokeniser.new (Text s)) eq_refl
              (tokeniser_initial s)) as (c' & Hfin & Hinv & Hflat & Hp).
  exists (trailing c'), (printed c'). unfold process. rewrite loop_final, Hfin.
  split; [reflexivity|].
  destruct Hinv as (Hst & Hrec & Hbuf & Hsort & Htl).
  change (flat (initial BrailleTokeniser.new (Text s))) with (@nil N) in Hflat.
  change (printed (initial BrailleTokeniser.new (Text s))) with (@nil diag) in Hp.
  cbn [app fmap list_fmap] in Hflat, Hp. unfold flat in Hflat. unfold trailing.
  split; [|split; [exact Hp|]].
  - rewrite <- Hflat. destruct (out_txt c'); [apply joined_snoc|].
    cbv [from_option]. rewrite app_nil_r. reflexivity.
  - destruct (out_txt c') as [b|].
    + split.
      * apply Forall_app. split; [exact Hrec|]. constructor; [|constructor].
        split; [exact Hst | exact Hbuf].
      * rewrite fmap_app. apply Sorted_snoc; assumption.
    + split; assumption.
Qed.

(** X3: the tokeniser returns for every string, within one execution of
    the loop body per character and never with [None], and the text of
    its records, joined, is the input without the characters that are in
    none of the five classes: for a string of recognised characters the
    records cover the input with no gap. *)
Theorem tokeniser_covers_input (s : str) (fuel : nat) :
  (length s ≤ fuel)%nat →
  ∃ out p, process BrailleTokeniser.new fuel (Text s) = Ret (Some out, p) ∧
    joined out = filter (fun ch => ch ∈ recognised) s.
Proof.
  intros Hfuel. destruct (tokeniser_run s) as (out & p & Hrun & Hcov & _).
  exists out, p. split; [|exact Hcov].
  apply (process_mono _ (length s)); assumption.
Qed.

(** X4: the tokeniser prints one diagnostic for each character of the
    input that is in none of the five classes, in the order of the input,
    each naming its character, and no other diagnostic. *)
Theorem tokeniser_reports_unrecognised (s : str) (fuel : nat) :
  (length s ≤ fuel)%nat →
  ∃ out p, process BrailleTokeniser.new fuel (Text s) = Ret (Some out, p) ∧
    missed <$> p = (fun ch => Some [ch]) <$> filter (fun ch => ch ∉ recognised) s.
Proof.
  intros Hfuel. destruct (tokeniser_run s) as (out & p & Hrun & _ & Hp & _).
  exists out, p. split; [|exact Hp].
  apply (process_mono _ (length s)); assumption.
Qed.

(** X5: every record the tokeniser returns is a run: its text is not
    empty, its tag is one of the seven, its characters are those of the
    class of the tag, and a whitespace record is a single character. *)
Theorem tokeniser_records_are_runs (s : str) (fuel : nat) (out : list Token)
    (p : list diag) :
  process BrailleTokeniser.new fuel (Text s) = Ret (Some out, p) →
  Forall good_record out.
Proof.
  intros Hrun. destruct (tokeniser_run s) as (out' & p' & Hrun' & _ & _ & Hgood & _).
  pose proof (loop_deterministic _ _ _ _ _ _ Hrun Hrun') as [= -> ->]. exact Hgood.
Qed.

(** X6: the runs are maximal: of two neighbouring records of the
    tokeniser, the first is whitespace or the two are of different kinds;
    never two runs of letters and digits, never two runs of punctuation
    side by side. *)
Theorem tokeniser_runs_are_maximal (s : str) (fuel : nat) (out : list Token)
    (p : list diag) :
  process BrailleTokeniser.new fuel (Text s) = Ret (Some out, p) →
  Sorted may_follow (out.*2).
Proof.
  intros Hrun. destruct (tokeniser_run s) as (out' & p' & Hrun' & _ & _ & _ & Hsort).
  pose proof (loop_deterministic _ _ _ _ _ _ Hrun Hrun') as [= -> ->]. exact Hsort.
Qed.

(** ["Hi there."], nine characters, all recognised. *)
Lemma tokeniser_covers_input_witness :
  ∃ out p, process BrailleTokeniser.new 9 (Text (py "Hi there.")) = Ret (Some out, p) ∧
    joined out = filter (fun ch => ch ∈ recognised) (py "Hi there.").
Proof. apply (tokeniser_covers_input (py "Hi there.") 9). compute. lia. Defined.

(** ["a!b?"]: ['!'] and ['?'] are reported. *)
Lemma tokeniser_reports_unrecognised_witness :
  ∃ out p, process BrailleTokeniser.new 4 (Text (py "a!b?")) = Ret (Some out, p) ∧
    missed <$> p
    = (fun ch => Some [ch]) <$> filter (fun ch => ch ∉ recognised) (py "a!b?").
Proof. apply (tokeniser_reports_unrecognised (py "a!b?") 4). compute. lia. Defined.

Lemma tokeniser_records_are_runs_witness :
  Forall good_record
    [(py "Hi", mixed_tag); (py " ", whitespace_tag); (py " ", whitespace_tag);
     (py "x2", alphanum_tag); (py ",.", punctuation_tag)].
Proof.
  apply (tokeniser_records_are_runs (py "Hi  x2,.") 8 _ []). by_vm.
Defined.

Lemma tokeniser_runs_are_maximal_witness :
  Sorted may_follow
    [mixed_tag; whitespace_tag; whitespace_tag; alphanum_tag; punctuation_tag].
Proof.
  apply (tokeniser_runs_are_maximal (py "Hi  x2,.") 8
           [(py "Hi", mixed_tag); (py " ", whitespace_tag); (py " ", whitespace_tag);
            (py "x2", alphanum_tag); (py ",.", punctuation_tag)] []).
  by_vm.
Defined.

(** * More on the translator *)

Lemma table_outputs_braille (txt : str) (t : Transition) :
  translator_table !! txt = Some t →
  Forall (fun e => is_braille_char (chars e) = true) t.1.2.
Proof.
  intros Ht. apply elem_of_map_to_list in Ht.
  assert (Hall : forallb (fun kv : str * Transition =>
            forallb (fun e => is_braille_char (chars e)) kv.2.1.2)
            (map_to_list translator_table) = true) by (vm_compute; reflexivity).
  rewrite forallb_forall in Hall. apply list_elem_of_In, Hall in Ht.
  cbn [snd] in Ht. apply Forall_forall. intros e He. rewrite forallb_forall in Ht.
  apply Ht, list_elem_of_In, He.
Qed.

Lemma is_braille_char_inv (v : str) :
  is_braille_char v = true → ∃ c, v = [c] ∧ braille_cp c.
Proof.
  intros Hv. destruct v as [|c [|]]; try discriminate Hv.
  cbn [is_braille_char] in Hv. apply andb_true_iff in Hv as [Hlo Hhi].
  apply N.leb_le in Hlo, Hhi. exists c. split; [reflexivity|]. split; assumption.
Qed.

Lemma buffer_app_add (b buf : option str) (o : str) :
  buffer_add (buffer_app b buf) o = buffer_app b (buffer_add buf o).
Proof.
  destruct b as [x|], buf as [y|]; cbn; try reflexivity.
  rewrite app_assoc. reflexivity.
Qed.

Lemma buffer_app_foldl (b : option str) (outs : list str) : ∀ buf,
  foldl buffer_add (buffer_app b buf) outs = buffer_app b (foldl buffer_add buf outs).
Proof.
  induction outs as [|o outs IH]; intros buf; [reflexivity|].
  cbn [foldl]. rewrite buffer_app_add. apply IH.
Qed.

Lemma buffer_app_None_r (b : option str) : buffer_app b None = b.
Proof. destruct b; reflexivity. Qed.

Section TranslatorSteps.

Variable str_lower : str → str.

(** The loop body in the translator, in closed form. *)
Lemma translator_step (c : config) (txt : str) (tg : tag) (rest : list Token) :
  state c = default_state → out_seq c = [] →
  body (translator str_lower) c (txt, tg) rest
  = Continue {| in_seq := (translator_action str_lower txt tg).1 ++ rest;
                out_txt := foldl buffer_add (out_txt c)
                             (translator_action str_lower txt tg).2;
                out_seq := []; state := default_state; printed := printed c |}.
Proof.
  intros Hst Hout. unfold body, translator_action.
  rewrite Hst, translator_default. cbv beta iota.
  destruct (translator_table !! txt) as [[[in_ out_] st_]|] eqn:Htr.
  - destruct (table_entries _ _ Htr) as [Hall Hnext]. cbn [fst snd] in Hall, Hnext.
    subst st_.
    rewrite Hout, (emit_texts (translator str_lower) tg default_state out_ _ _ Hall).
    reflexivity.
  - destruct (transform_shape str_lower txt tg default_state) as [in_ ->].
    rewrite Hout. reflexivity.
Qed.

Lemma translator_config_step (q : list Token) (b : option str) (txt : str) (tg : tag)
    (rest : list Token) :
  body (translator str_lower) (translator_config q b) (txt, tg) rest
  = Continue (translator_config ((translator_action str_lower txt tg).1 ++ rest)
                (foldl buffer_add b (translator_action str_lower txt tg).2)).
Proof. rewrite translator_step by reflexivity. reflexivity. Qed.

(** The locals at the end of a run of the translator. *)
Lemma translator_final (fuel : nat) : ∀ (q : list Token) (b : option str) r,
  final (translator str_lower) fuel (translator_config q b) = Ret r →
  ∃ b', r = inl (translator_config [] b').
Proof.
  induction fuel as [|fuel IH]; intros q b r Hrun.
  - simpl in Hrun. destruct q; [|discriminate]. injection Hrun as <-. eauto.
  - destruct q as [|[txt tg] rest].
    + injection Hrun as <-. eauto.
    + cbn [final in_seq translator_config] in Hrun.
      fold (translator_config ((txt, tg) :: rest) b) in Hrun.
      rewrite translator_config_step in Hrun. apply (IH _ _ _ Hrun).
Qed.

(** A run of the translator that starts with text in the buffer gives
    that text followed by what it gives from an empty buffer. *)
Lemma translator_prefix (b : option str) (fuel : nat) : ∀ (q : list Token) (buf b2 : option str),
  final (translator str_lower) fuel (translator_config q buf)
    = Ret (inl (translator_config [] b2)) →
  final (translator str_lower) fuel (translator_config q (buffer_app b buf))
    = Ret (inl (translator_config [] (buffer_app b b2))).
Proof.
  induction fuel as [|fuel IH]; intros q buf b2 Hrun.
  - simpl in *. destruct q; [|discriminate]. injection Hrun as <-. reflexivity.
  - destruct q as [|[txt tg] rest].
    + injection Hrun as <-. reflexivity.
    + cbn [final in_seq translator_config] in *.
      fold (translator_config ((txt, tg) :: rest) buf) in Hrun.
      fold (translator_config ((txt, tg) :: rest) (buffer_app b buf)).
      rewrite translator_config_step in *.
      rewrite buffer_app_foldl. apply (IH _ _ _ Hrun).
Qed.


Lemma process_translator_config (inp : input) (fuel : nat) :
  process (translator str_lower) fuel inp
  = loop (translator str_lower) fuel (translator_config (in_seq (initial (translator str_lower) inp)) None).
Proof. reflexivity. Qed.

(** A run of the translator that returns: the locals at the end, and
    what is returned. *)
Lemma translator_loop_final (fuel : nat) (q : list Token) (b : option str) x :
  loop (translator str_lower) fuel (translator_config q b) = Ret x →
  ∃ b', final (translator str_lower) fuel (translator_config q b)
          = Ret (inl (translator_config [] b')) ∧
        x = (Some (single_record b' default_state), []).
Proof.
  rewrite loop_final. intros Hrun.
  destruct (final (translator str_lower) fuel (translator_config q b)) as [r| |] eqn:Hfin;
    try discriminate Hrun.
  destruct (translator_final _ _ _ _ Hfin) as [b' ->].
  exists b'. split; [reflexivity|]. injection Hrun as <-.
  unfold trailing, single_record. cbn. destruct b'; reflexivity.
Qed.

Lemma joined_single_record (b : option str) (st : tag) :
  joined (single_record b st) = default [] b.
Proof. destruct b; cbn; [apply app_nil_r | reflexivity]. Qed.

Lemma buffer_app_default (b1 b2 : option str) :
  default [] (buffer_app b1 b2) = default [] b1 ++ default [] b2.
Proof. destruct b1, b2; cbn; rewrite ?app_nil_r; reflexivity. Qed.

(** X7: the translator maps concatenation to concatenation: when the
    runs on the token lists [q1] and [q2] return, the run on [q1 ++ q2]
    returns too, within the sum of their numbers of iterations, and its
    text is the text for [q1] followed by the text for [q2]. *)
Theorem translator_concatenation (q1 q2 : list Token) (n m : nat)
    (out1 out2 : list Token) (p1 p2 : list diag) :
  process (translator str_lower) n (Tokens q1) = Ret (Some out1, p1) →
  process (translator str_lower) m (Tokens q2) = Ret (Some out2, p2) →
  ∃ out, process (translator str_lower) (n + m) (Tokens (q1 ++ q2)) = Ret (Some out, []) ∧
         joined out = joined out1 ++ joined out2.
Proof.
  rewrite !process_translator_config. cbn [initial in_seq]. intros H1 H2.
  destruct (translator_loop_final _ _ _ _ H1) as (b1 & Hf1 & [= -> ->]).
  destruct (translator_loop_final _ _ _ _ H2) as (b2 & Hf2 & [= -> ->]).
  pose proof (translator_prefix b1 m q2 None b2 Hf2) as Hf12.
  rewrite buffer_app_None_r in Hf12.
  exists (single_record (buffer_app b1 b2) default_state). split.
  - apply (queue_concatenation (translator str_lower) q2 n m
             (translator_config q1 None) (translator_config [] b1)); [exact Hf1|].
    change (with_queue (translator_config [] b1) q2) with (translator_config q2 b1).
    rewrite loop_final, Hf12. unfold trailing, single_record. cbn.
    destruct (buffer_app b1 b2); reflexivity.
  - rewrite !joined_single_record. apply buffer_app_default.
Qed.

(** ** What comes out *)

Lemma action_outputs_braille (txt : str) (tg : tag) :
  Forall (fun o => is_braille_char o = true) (translator_action str_lower txt tg).2.
Proof.
  unfold translator_action.
  destruct (translator_table !! txt) as [[[in_ out_] st_]|] eqn:Htr.
  - apply table_outputs_braille in Htr. cbn [fst snd] in *.
    apply Forall_fmap. exact Htr.
  - destruct (transform _ _ _ _) as [[[? ?] ?]|]; constructor.
Qed.

(** A buffer of the translator: not written to, or a string of Braille
    cells that is not empty. *)
Lemma buffer_stays_braille (outs : list str) : ∀ b : option str,
  Forall (fun o => is_braille_char o = true) outs →
  (∀ t, b = Some t → t ≠ [] ∧ Forall braille_cp t) →
  ∀ t, foldl buffer_add b outs = Some t → t ≠ [] ∧ Forall braille_cp t.
Proof.
  induction outs as [|o outs IH]; intros b Houts Hb; [exact Hb|].
  inversion Houts as [|? ? Ho Hrest]; subst. cbn [foldl].
  apply IH; [exact Hrest|]. intros t [= <-].
  destruct (is_braille_char_inv o Ho) as (c & -> & Hc).
  destruct b as [x|].
  - destruct (Hb x eq_refl) as [_ Hx]. split; [apply not_eq_sym, app_cons_not_nil|].
    apply Forall_app. split; [exact Hx | constructor; [exact Hc | constructor]].
  - split; [discriminate | constructor; [exact Hc | constructor]].
Qed.

Lemma translator_final_braille (fuel : nat) : ∀ (q : list Token) (b b' : option str),
  final (translator str_lower) fuel (translator_config q b)
    = Ret (inl (translator_config [] b')) →
  (∀ t, b = Some t → t ≠ [] ∧ Forall braille_cp t) →
  ∀ t, b' = Some t → t ≠ [] ∧ Forall braille_cp t.
Proof.
  induction fuel as [|fuel IH]; intros q b b' Hrun Hb.
  - simpl in Hrun. destruct q; [|discriminate]. injection Hrun as <-. exact Hb.
  - destruct q as [|[txt tg] rest].
    + injection Hrun as <-. exact Hb.
    + cbn [final in_seq translator_config] in Hrun.
      fold (translator_config ((txt, tg) :: rest) b) in Hrun.
      rewrite translator_config_step in Hrun.
      apply (IH _ _ _ Hrun). apply buffer_stays_braille; [|exact Hb].
      apply action_outputs_braille.
Qed.

(** X8: whatever [process] of the translator returns is fit for the
    driver's [u2d[x]]: nothing was printed, a record has the tag
    ["default"] and a text that is not empty, and each character of it is
    a Braille cell U+2800 to U+283F, a key of the second conversion map
    whose value is a dot pattern. *)
Theorem translator_output_is_braille (btrn : FSM) (fuel : nat) (inp : input)
    (r : option (list Token)) (p : list diag) :
  BrailleTranslator.new str_lower = Some btrn →
  process btrn fuel inp = Ret (r, p) →
  p = [] ∧ ∃ out, r = Some out ∧
  Forall (fun rec : Token =>
    rec.1 ≠ [] ∧ rec.2 = default_state ∧
    Forall (fun x => braille_cp x ∧
              ∃ dots, conversion_maps.2 !! [x] = Some dots ∧ is_dot_pattern dots = true)
           rec.1) out.
Proof.
  rewrite new_unfold. intros [= <-]. rewrite process_translator_config. intros Hrun.
  destruct (translator_loop_final _ _ _ _ Hrun) as (b' & Hfin & [= -> ->]).
  split; [reflexivity|]. eexists. split; [reflexivity|].
  destruct b' as [t|]; [|constructor].
  destruct (translator_final_braille _ _ _ _ Hfin (fun t (E : None = Some t) =>
              ltac:(discriminate E)) t eq_refl) as [Hne Hbr].
  constructor; [|constructor]. cbn [fst snd]. split; [exact Hne|]. split; [reflexivity|].
  eapply Forall_impl; [exact Hbr|]. intros x Hx. split; [exact Hx|].
  assert (Hv : is_braille_char [x] = true).
  { destruct Hx as [Hlo Hhi]. cbn. apply andb_true_iff. split; apply N.leb_le; assumption. }
  destruct (unicode2dots_total [x] Hv) as [dots Hdots].
  exists dots. split; [exact Hdots|]. apply (unicode2dots_entries [x] dots Hdots).
Qed.


(** ** transform *)

Lemma find_from_found (x : str) : ∀ (txt : str) (i : Z),
  find_from x txt i ≠ (-1)%Z → (0 ≤ i)%Z →
  ∃ k : nat, find_from x txt i = (i + Z.of_nat k)%Z ∧
             take (length x) (drop k txt) = x.
Proof.
  induction txt as [|c rest IH]; intros i Hfound Hi; cbn [find_from] in *.
  - unfold is_prefix in *. case_bool_decide as Hp; [|destruct (Hfound eq_refl)].
    exists 0%nat. split; [lia | exact Hp].
  - unfold is_prefix in *. case_bool_decide as Hp.
    + exists 0%nat. split; [lia | exact Hp].
    + destruct (IH (i + 1)%Z Hfound ltac:(lia)) as (k & Hk & Htake).
      exists (S k). split; [lia | exact Htake].
Qed.

(** Where [find] has found [x], the text is what is before, [x], and
    what is behind. *)
Lemma str_find_split (txt x : str) :
  str_find txt x ≠ (-1)%Z →
  txt = take (Z.to_nat (str_find txt x)) txt ++ x
        ++ drop (Z.to_nat (str_find txt x + Z.of_nat (length x))) txt.
Proof.
  intros Hfound. unfold str_find in *.
  destruct (find_from_found x txt 0 Hfound ltac:(lia)) as (k & -> & Htake).
  replace (Z.to_nat (0 + Z.of_nat k)) with k by lia.
  replace (Z.to_nat (0 + Z.of_nat k + Z.of_nat (length x))) with (k + length x)%nat by lia.
  pose proof (take_drop (length x) (drop k txt)) as Hx. rewrite Htake in Hx.
  rewrite <- drop_drop, Hx, take_drop. reflexivity.
Qed.

Lemma split_fragment_Some (frs : list str) (txt : str) (tg : tag) (in_ : list Token) :
  BrailleTranslator.split_fragment frs txt tg = Some in_ →
  ∃ pre x post, x ∈ frs ∧ txt = pre ++ x ++ post ∧
    in_ = (fun t => (t, tg)) <$> filter (fun t => t ≠ []) [pre; x; post].
Proof.
  induction frs as [|x frs IH]; cbn [BrailleTranslator.split_fragment]; [discriminate|].
  destruct (str_find txt x =? -1)%Z eqn:Hfind.
  - intros H. destruct (IH H) as (pre & y & post & Hy & Htxt & Hin).
    exists pre, y, post. split; [right; exact Hy | auto].
  - intros [= <-]. apply Z.eqb_neq in Hfind.
    eexists _, x, _. split; [left|]. split; [apply (str_find_split txt x Hfind)|].
    reflexivity.
Qed.

Lemma concat_nonempty (l : list str) : concat (filter (fun t => t ≠ []) l) = concat l.
Proof.
  induction l as [|t l IH]; [reflexivity|].
  rewrite filter_cons. destruct (decide (t ≠ [])) as [Hne|He]; cbn; rewrite IH.
  - reflexivity.
  - destruct t; [reflexivity|]. destruct He. discriminate.
Qed.

Lemma retag_texts (tg : tag) (l : list str) : ((fun t => (t, tg)) <$> l).*1 = l.
Proof. induction l as [|t l IH]; cbn; [|rewrite IH]; reflexivity. Qed.

Lemma concat_chars_of (txt : str) : concat (chars_of txt) = txt.
Proof. induction txt as [|c txt IH]; cbn; [|fold (chars_of txt); rewrite IH]; reflexivity. Qed.

(** X9: for a tag other than the number and the upper-case tag,
    [transform] loses no text: whether it splits at a fragment or into
    characters, the tokens it pushes carry the tag of the token it was
    given, none has an empty text, and their texts, joined, are the text
    it was given; it adds nothing to the output and keeps the state. *)
Theorem transform_keeps_text (upper_code number_code : str) (frs : list str)
    (txt : str) (tg st : tag) :
  tg ≠ number_tag → tg ≠ upper_tag →
  ∃ in_, BrailleTranslator.transform str_lower upper_code number_code frs txt tg st
         = Some (in_, [], st) ∧
    concat (in_.*1) = txt ∧
    Forall (fun tok : Token => tok.1 ≠ [] ∧ tok.2 = tg) in_.
Proof.
  intros Hn Hu. unfold BrailleTranslator.transform.
  rewrite (bool_decide_eq_false_2 _ Hn), (bool_decide_eq_false_2 _ Hu).
  destruct (BrailleTranslator.split_fragment frs txt tg) as [in_|] eqn:Hsplit.
  - exists in_. split; [reflexivity|].
    destruct (split_fragment_Some _ _ _ _ Hsplit) as (pre & x & post & _ & Htxt & ->).
    split.
    + rewrite retag_texts, concat_nonempty, Htxt. cbn. rewrite app_nil_r. reflexivity.
    + apply Forall_fmap, Forall_forall. intros t Ht.
      apply list_elem_of_filter in Ht as [Hne _]. split; [exact Hne | reflexivity].
  - eexists. split; [reflexivity|]. split.
    + rewrite retag_texts. apply concat_chars_of.
    + apply Forall_fmap, Forall_fmap, Forall_forall. intros c _. split; [discriminate|reflexivity].
Qed.


(** ** The two indicators *)

Lemma action_number (txt : str) :
  translator_table !! txt = None →
  translator_action str_lower txt number_tag
  = ([([0x283C], number_tag); (txt, lower_tag)], []).
Proof.
  intros Htr. unfold translator_action. rewrite Htr.
  cbn [transform translator]. unfold BrailleTranslator.transform.
  rewrite bool_decide_eq_true_2 by reflexivity. reflexivity.
Qed.

Lemma action_upper (txt : str) :
  translator_table !! txt = None →
  translator_action str_lower txt upper_tag
  = ([([0x2820], upper_tag); ([0x2820], upper_tag); (str_lower txt, lower_tag)], []).
Proof.
  intros Htr. unfold translator_action. rewrite Htr.
  cbn [transform translator]. unfold BrailleTranslator.transform.
  rewrite bool_decide_eq_false_2 by discriminate.
  rewrite bool_decide_eq_true_2 by reflexivity. reflexivity.
Qed.

Lemma action_braille (c : N) (tg : tag) :
  braille_cp c → translator_action str_lower [c] tg = ([], [[c]]).
Proof.
  intros Hc. unfold translator_action. rewrite (table_braille c Hc). reflexivity.
Qed.

(** A run from a buffer with text, out of the run from the empty
    buffer. *)
Lemma translator_loop_prefix (t : str) (q : list Token) (n : nat)
    (out : list Token) (p : list diag) :
  process (translator str_lower) n (Tokens q) = Ret (Some out, p) →
  ∃ out', loop (translator str_lower) n (translator_config q (Some t))
          = Ret (Some out', []) ∧ joined out' = t ++ joined out.
Proof.
  rewrite process_translator_config. cbn [initial in_seq]. intros Hrun.
  destruct (translator_loop_final _ _ _ _ Hrun) as (b2 & Hfin & [= -> ->]).
  pose proof (translator_prefix (Some t) n q None b2 Hfin) as Hpre.
  cbn [buffer_app] in Hpre.
  exists (single_record (buffer_app (Some t) b2) default_state). split.
  - rewrite loop_final, Hpre. unfold trailing, single_record. cbn.
    destruct (buffer_app (Some t) b2); reflexivity.
  - rewrite !joined_single_record. apply buffer_app_default.
Qed.

(** X10: a number run whose text is not a key of the table (any number
    of two or more digits) comes out as the number indicator followed by
    what the same text gives as a lower-case run, two iterations later. *)
Theorem number_run_gets_indicator (txt : str) (n : nat) (out : list Token)
    (p : list diag) :
  translator_table !! txt = None →
  process (translator str_lower) n (Tokens [(txt, lower_tag)]) = Ret (Some out, p) →
  ∃ out', process (translator str_lower) (2 + n) (Tokens [(txt, number_tag)])
          = Ret (Some out', []) ∧
    joined out' = [0x283C] ++ joined out.
Proof.
  intros Htr Hrun.
  destruct (translator_loop_prefix [0x283C] _ _ _ _ Hrun) as (out' & Hrun' & Hj).
  exists out'. split; [|exact Hj].
  rewrite process_translator_config. cbn [initial in_seq Nat.add].
  erewrite loop_cons by reflexivity. rewrite translator_config_step, (action_number _ Htr).
  cbn [fst snd app foldl].
  erewrite loop_cons by reflexivity.
  rewrite translator_config_step, action_braille by (unfold braille_cp; lia).
  exact Hrun'.
Qed.

(** X11: an upper-case run whose text is not a key of the table (any
    run of two or more capitals) comes out as two upper-case indicators
    followed by what the lower-cased text gives as a lower-case run,
    three iterations later. *)
Theorem upper_run_gets_two_indicators (txt : str) (n : nat) (out : list Token)
    (p : list diag) :
  translator_table !! txt = None →
  process (translator str_lower) n (Tokens [(str_lower txt, lower_tag)])
    = Ret (Some out, p) →
  ∃ out', process (translator str_lower) (3 + n) (Tokens [(txt, upper_tag)])
          = Ret (Some out', []) ∧
    joined out' = [0x2820; 0x2820] ++ joined out.
Proof.
  intros Htr Hrun.
  destruct (translator_loop_prefix [0x2820; 0x2820] _ _ _ _ Hrun) as (out' & Hrun' & Hj).
  exists out'. split; [|exact Hj].
  rewrite process_translator_config. cbn [initial in_seq Nat.add].
  erewrite loop_cons by reflexivity. rewrite translator_config_step, (action_upper _ Htr).
  cbn [fst snd app foldl].
  erewrite loop_cons by reflexivity.
  rewrite translator_config_step, action_braille by (unfold braille_cp; lia).
  cbn [fst snd app foldl].
  erewrite loop_cons by reflexivity.
  rewrite translator_config_step, action_braille by (unfold braille_cp; lia).
  exact Hrun'.
Qed.

End TranslatorSteps.

(** ** Termination on the translator's alphabet *)

Lemma weight_app (s t : str) : weight (s ++ t) = (weight s + weight t)%nat.
Proof. apply sum_list_with_app. Qed.

Lemma weight_pos (s : str) : s ≠ [] → (1 ≤ weight s)%nat.
Proof.
  destruct s as [|c s]; [intros H; destruct (H eq_refl)|]. intros _.
  unfold weight. cbn. unfold cp_weight at 1. destruct (c =? 9); lia.
Qed.

Lemma queue_cost_app (q1 q2 : list Token) :
  queue_cost (q1 ++ q2) = (queue_cost q1 + queue_cost q2)%nat.
Proof. apply sum_list_with_app. Qed.

Lemma cost_pos (tok : Token) : (1 ≤ cost tok)%nat.
Proof. unfold cost. lia. Qed.

(** The cost of a token whose tag is neither the number nor the
    upper-case tag, and of a token whose text is a key. *)
Lemma cost_plain (txt : str) (tg : tag) :
  tg ≠ number_tag → tg ≠ upper_tag →
  cost (txt, tg) = Nat.max 1 (2 * weight txt - 1).
Proof.
  intros Hn Hu. unfold cost. cbn [fst snd].
  destruct (translator_table !! txt); [lia|].
  rewrite (decide_False (P:=tg = number_tag)) by exact Hn.
  rewrite (decide_False (P:=tg = upper_tag)) by exact Hu. lia.
Qed.

Lemma cost_key (txt : str) (tg : tag) :
  is_Some (translator_table !! txt) → cost (txt, tg) = Nat.max 1 (2 * weight txt - 1).
Proof. intros [t Ht]. unfold cost. cbn [fst snd]. rewrite Ht. lia. Qed.

(** Every transition of the table pushes known text that costs less than
    its key. *)
Lemma table_pushes_less (txt : str) (t : Transition) :
  translator_table !! txt = Some t →
  (queue_cost t.1.1 < Nat.max 1 (2 * weight txt - 1))%nat ∧ known_tokens t.1.1.
Proof.
  intros Ht. apply elem_of_map_to_list in Ht.
  assert (Hall : forallb (fun kv : str * Transition =>
            (queue_cost kv.2.1.1 <? Nat.max 1 (2 * weight kv.1 - 1))%nat
            && forallb (fun tok : Token =>
                 forallb (fun c => bool_decide (known c)) tok.1) kv.2.1.1)
            (map_to_list translator_table) = true) by (vm_compute; reflexivity).
  rewrite forallb_forall in Hall. apply list_elem_of_In, Hall in Ht.
  cbn [fst snd] in Ht. apply andb_true_iff in Ht as [Hlt Hknown].
  apply Nat.ltb_lt in Hlt. split; [exact Hlt|].
  apply Forall_forall. intros tok Htok. rewrite forallb_forall in Hknown.
  apply list_elem_of_In, Hknown in Htok. apply Forall_forall. intros c Hc.
  rewrite forallb_forall in Htok. apply list_elem_of_In, Htok, bool_decide_eq_true in Hc.
  exact Hc.
Qed.

(** The characters of a text, as tokens: they cost twice the weight of
    the text less its length. *)
Lemma chars_cost (tg : tag) (txt : str) :
  Forall known txt →
  (queue_cost ((fun t => (t, tg)) <$> chars_of txt) + length txt = 2 * weight txt)%nat.
Proof.
  induction 1 as [|c txt Hc _ IH]; [reflexivity|].
  cbn [chars_of fmap list_fmap length]. fold (chars_of txt).
  unfold queue_cost in *. cbn [sum_list_with fmap list_fmap].
  rewrite (cost_key [c] tg Hc). change (weight (c :: txt)) with (cp_weight c + weight txt)%nat.
  unfold weight at 1. cbn. unfold cp_weight in *. destruct (c =? 9); lia.
Qed.

Lemma known_chars (tg : tag) (txt : str) :
  Forall known txt → known_tokens ((fun t => (t, tg)) <$> chars_of txt).
Proof.
  intros H. apply Forall_fmap, Forall_fmap. eapply Forall_impl; [exact H|].
  intros c Hc. cbn. constructor; [exact Hc | constructor].
Qed.

Section TranslatorTermination.

Variable str_lower : str → str.

(** What is asked of [str.lower]: on text over the translator's alphabet
    it stays in the alphabet and makes no tab. *)
Hypothesis lower_known : ∀ s,
  Forall known s → Forall known (str_lower s) ∧ (weight (str_lower s) ≤ weight s)%nat.

(** What the loop body pushes for a token over the alphabet costs less
    than the token, and is over the alphabet. *)
Lemma action_costs_less (txt : str) (tg : tag) :
  Forall known txt →
  (queue_cost (translator_action str_lower txt tg).1 < cost (txt, tg))%nat ∧
  known_tokens (translator_action str_lower txt tg).1.
Proof.
  intros Hknown. unfold translator_action.
  destruct (translator_table !! txt) as [[[in_ out_] st_]|] eqn:Htr.
  - rewrite (cost_key txt tg (mk_is_Some _ _ Htr)).
    apply (table_pushes_less txt _ Htr).
  - cbn [transform translator]. unfold BrailleTranslator.transform.
    case_bool_decide as Hn; [|case_bool_decide as Hu].
    + subst tg. cbn [fst]. split.
      * unfold queue_cost. cbn [sum_list_with fmap list_fmap].
        rewrite (cost_key [0x283C] number_tag) by (vm_compute; eexists; reflexivity).
        rewrite (cost_plain txt lower_tag) by discriminate.
        unfold cost. cbn [fst snd]. rewrite Htr.
        rewrite (decide_True (P:=number_tag = number_tag)) by reflexivity.
        change (weight [0x283C]) with 1%nat. lia.
      * constructor; [|constructor; [exact Hknown | constructor]].
        constructor; [vm_compute; eexists; reflexivity | constructor].
    + subst tg. cbn [fst]. destruct (lower_known txt Hknown) as [Hlk Hlw]. split.
      * unfold queue_cost. cbn [sum_list_with fmap list_fmap].
        rewrite (cost_key [0x2820] upper_tag) by (vm_compute; eexists; reflexivity).
        rewrite (cost_plain (str_lower txt) lower_tag) by discriminate.
        unfold cost. cbn [fst snd]. rewrite Htr.
        rewrite (decide_False (P:=upper_tag = number_tag)) by discriminate.
        rewrite (decide_True (P:=upper_tag = upper_tag)) by reflexivity.
        change (weight [0x2820]) with 1%nat. lia.
      * repeat (constructor; [constructor; [vm_compute; eexists; reflexivity | constructor]|]).
        constructor; [exact Hlk | constructor].
    + rewrite (cost_plain txt tg Hn Hu).
      destruct (BrailleTranslator.split_fragment _ txt tg) as [in_|] eqn:Hsplit; cbn [fst].
      * destruct (split_fragment_Some _ _ _ _ Hsplit) as (pre & x & post & Hx & Htxt & ->).
        assert (Hxk : is_Some (translator_table !! x) ∧ Forall known x ∧ x ≠ []).
        { repeat (apply elem_of_cons in Hx as [-> | Hx]);
            [| |apply elem_of_nil in Hx; destruct Hx];
            (split; [vm_compute; eexists; reflexivity|]);
            (split; [|discriminate]);
            repeat (constructor; [vm_compute; eexists; reflexivity|]); constructor. }
        destruct Hxk as (Hxkey & Hxknown & Hxne).
        assert (Hparts : Forall known pre ∧ Forall known post).
        { rewrite Htxt in Hknown. apply Forall_app in Hknown as [Hp Hrest].
          apply Forall_app in Hrest as [_ Hq]. auto. }
        destruct Hparts as [Hpk Hqk].
        assert (Hsome : pre ≠ [] ∨ post ≠ []).
        { destruct pre, post; [|right; discriminate|left; discriminate|left; discriminate].
          cbn in Htxt. rewrite app_nil_r in Htxt. subst x.
          destruct Hxkey as [t Ht]. rewrite Ht in Htr. discriminate Htr. }
        pose proof (weight_pos x Hxne) as Hwx.
        assert (Hw : weight txt = (weight pre + weight x + weight post)%nat).
        { rewrite Htxt, !weight_app. lia. }
        split.
        -- unfold queue_cost. rewrite !filter_cons, filter_nil.
           destruct (decide (pre ≠ [])) as [Hp|Hp];
           destruct (decide (x ≠ [])) as [_|Hxe]; try (destruct (Hxe Hxne));
           destruct (decide (post ≠ [])) as [Hq|Hq];
           cbn [sum_list_with fmap list_fmap];
           rewrite ?(cost_plain _ tg Hn Hu);
           try pose proof (weight_pos pre Hp); try pose proof (weight_pos post Hq);
           try lia.
           exfalso. destruct Hsome as [H|H]; [apply Hp, H | apply Hq, H].
        -- apply Forall_fmap, Forall_forall. intros t Ht.
           apply list_elem_of_filter in Ht as [_ Ht].
           repeat (apply elem_of_cons in Ht as [-> | Ht]); try assumption.
           apply elem_of_nil in Ht. destruct Ht.
      * split; [|apply known_chars, Hknown].
        pose proof (chars_cost tg txt Hknown) as Hc.
        destruct txt as [|c1 [|c2 txt]].
        -- cbn. lia.
        -- inversion Hknown as [|? ? [t Ht] _]; subst. rewrite Ht in Htr. discriminate Htr.
        -- assert (2 ≤ weight (c1 :: c2 :: txt))%nat.
           { change (c1 :: c2 :: txt) with ([c1] ++ [c2] ++ txt). rewrite !weight_app.
             pose proof (weight_pos [c1] ltac:(discriminate)).
             pose proof (weight_pos [c2] ltac:(discriminate)). lia. }
           cbn [length] in Hc. lia.
Qed.

Lemma translator_terminates (fuel : nat) : ∀ (q : list Token) (b : option str),
  known_tokens q → (queue_cost q ≤ fuel)%nat →
  ∃ b', final (translator str_lower) fuel (translator_config q b)
        = Ret (inl (translator_config [] b')).
Proof.
  induction fuel as [|fuel IH]; intros q b Hq Hfuel.
  - destruct q as [|tok rest]; [eexists; reflexivity|].
    unfold queue_cost in Hfuel. cbn in Hfuel. pose proof (cost_pos tok). lia.
  - destruct q as [|[txt tg] rest]; [eexists; reflexivity|].
    inversion Hq as [|? ? Htxt Hrest]; subst. cbn [fst] in Htxt.
    destruct (action_costs_less txt tg Htxt) as [Hlt Hk].
    cbn [final in_seq translator_config].
    fold (translator_config ((txt, tg) :: rest) b).
    rewrite translator_config_step. apply IH.
    + apply Forall_app. split; assumption.
    + rewrite queue_cost_app. change ((txt, tg) :: rest) with ([(txt, tg)] ++ rest) in Hfuel.
      rewrite queue_cost_app in Hfuel. unfold queue_cost at 1 in Hfuel. cbn in Hfuel. lia.
Qed.

(** X12: on token lists over its alphabet (the characters that are keys
    of its table) the translator terminates: [process] returns within
    [queue_cost] executions of the loop body, a bound linear in the length
    of the texts, with at most one record and nothing printed. *)
Theorem translator_terminates_on_known (toks : list Token) :
  known_tokens toks →
  ∃ buf, process (translator str_lower) (queue_cost toks) (Tokens toks)
         = Ret (Some (single_record buf default_state), []).
Proof.
  intros Hk.
  destruct (translator_terminates (queue_cost toks) toks None Hk (le_n _)) as [b' Hfin].
  exists b'. rewrite process_translator_config. cbn [initial in_seq].
  rewrite loop_final, Hfin. unfold trailing, single_record. cbn. destruct b'; reflexivity.
Qed.

End TranslatorTermination.

(** * The translator at concrete inputs, with [str.lower] on ASCII *)

(** ["ab"] as a lower-case run, then ["12"] as a number run. *)
Lemma translator_concatenation_witness :
  ∃ out, process (translator ascii_lower) (3 + 5)
           (Tokens ([(py "ab", lower_tag)] ++ [(py "12", number_tag)]))
         = Ret (Some out, []) ∧
    joined out = joined [([0x2801; 0x2803], default_state)]
                 ++ joined [([0x283C; 0x2801; 0x2803], default_state)].
Proof.
  apply (translator_concatenation ascii_lower
           [(py "ab", lower_tag)] [(py "12", number_tag)] 3 5 _ _ [] []); by_vm.
Defined.

Lemma translator_output_is_braille_witness :
  (@nil diag) = [] ∧ ∃ out, Some [([0x2813; 0x280A], default_state)] = Some out ∧
  Forall (fun rec : Token =>
    rec.1 ≠ [] ∧ rec.2 = default_state ∧
    Forall (fun x => braille_cp x ∧
              ∃ dots, conversion_maps.2 !! [x] = Some dots ∧ is_dot_pattern dots = true)
           rec.1) out.
Proof.
  apply (translator_output_is_braille ascii_lower (translator ascii_lower) 3
           (Text (py "hi"))); [apply new_unfold | by_vm].
Defined.

(** ["banded"] is split into ["band"] and ["ed"]. *)
Lemma transform_keeps_text_witness :
  ∃ in_, BrailleTranslator.transform ascii_lower [0x2820] [0x283C] [py "ed"; py "ing"]
           (py "banded") lower_tag default_state
         = Some (in_, [], default_state) ∧
    concat (in_.*1) = py "banded" ∧
    Forall (fun tok : Token => tok.1 ≠ [] ∧ tok.2 = lower_tag) in_.
Proof. apply (transform_keeps_text ascii_lower); discriminate. Defined.

(** ["12"] as a number run. *)
Lemma number_run_gets_indicator_witness :
  ∃ out', process (translator ascii_lower) (2 + 3) (Tokens [(py "12", number_tag)])
          = Ret (Some out', []) ∧
    joined out' = [0x283C] ++ joined [([0x2801; 0x2803], default_state)].
Proof.
  apply (number_run_gets_indicator ascii_lower (py "12") 3 _ []); by_vm.
Defined.

(** ["OK"] as an upper-case run. *)
Lemma upper_run_gets_two_indicators_witness :
  ∃ out', process (translator ascii_lower) (3 + 3) (Tokens [(py "OK", upper_tag)])
          = Ret (Some out', []) ∧
    joined out' = [0x2820; 0x2820] ++ joined [([0x2815; 0x2805], default_state)].
Proof.
  apply (upper_run_gets_two_indicators ascii_lower (py "OK") 3 _ []); by_vm.
Defined.

(** [str.lower] on ASCII meets what the termination theorem asks. *)
Lemma ascii_lower_cp_known (c : N) :
  known c → known (ascii_lower_cp c) ∧ (cp_weight (ascii_lower_cp c) ≤ cp_weight c)%nat.
Proof.
  intros [t Ht]. apply elem_of_map_to_list in Ht.
  assert (Hall : forallb (fun kv : str * Transition =>
            match kv.1 with
            | [c] => bool_decide (known (ascii_lower_cp c))
                     && (cp_weight (ascii_lower_cp c) <=? cp_weight c)%nat
            | _ => true
            end) (map_to_list translator_table) = true) by (vm_compute; reflexivity).
  rewrite forallb_forall in Hall. apply list_elem_of_In, Hall in Ht. cbn [fst] in Ht.
  apply andb_true_iff in Ht as [Hk Hw]. apply bool_decide_eq_true in Hk.
  apply Nat.leb_le in Hw. auto.
Qed.

Lemma ascii_lower_known (s : str) :
  Forall known s →
  Forall known (ascii_lower s) ∧ (weight (ascii_lower s) ≤ weight s)%nat.
Proof.
  induction 1 as [|c s Hc _ [IHk IHw]]; [split; [constructor | reflexivity]|].
  destruct (ascii_lower_cp_known c Hc) as [Hk Hw]. split.
  - constructor; assumption.
  - unfold weight, ascii_lower in *. cbn [fmap list_fmap sum_list_with]. lia.
Qed.

(** The runs of ["Hello you"]. *)
Lemma translator_terminates_on_known_witness :
  ∃ buf, process (translator ascii_lower)
           (queue_cost [(py "Hello", mixed_tag); (py " ", whitespace_tag);
                        (py "you", lower_tag)])
           (Tokens [(py "Hello", mixed_tag); (py " ", whitespace_tag);
                    (py "you", lower_tag)])
         = Ret (Some (single_record buf default_state), []).
Proof.
  apply (translator_terminates_on_known ascii_lower ascii_lower_known).
  repeat (constructor;
          [repeat (constructor; [vm_compute; eexists; reflexivity|]); constructor|]).
  constructor.
Defined.

(** * The conversion maps and the Unicode chart *)

(** X13: the first conversion map sends the pattern of the dots 1 to 6
    to the character whose code point is U+2800 plus the number with dot
    [k] as bit [k - 1], as the Unicode chart of the Braille block has it,
    and the second map sends that character back to the pattern. *)
Theorem conversion_maps_follow_unicode (d1 d2 d3 d4 d5 d6 : bool) :
  ∃ dots2unicode unicode2dots : gmap str str,
    get_conversion_maps = Some (dots2unicode, unicode2dots) ∧
    dots2unicode !! dot_pattern d1 d2 d3 d4 d5 d6
      = Some [dots_code_point d1 d2 d3 d4 d5 d6] ∧
    unicode2dots !! [dots_code_point d1 d2 d3 d4 d5 d6]
      = Some (dot_pattern d1 d2 d3 d4 d5 d6).
Proof.
  exists conversion_maps.1, conversion_maps.2.
  split; [rewrite get_conversion_maps_returns; destruct conversion_maps; reflexivity|].
  destruct d1, d2, d3, d4, d5, d6; split; by_vm.
Qed.

(** * The driver path *)

Lemma recognised_known (c : N) : c ∈ recognised → c ≠ 59 → c ≠ 58 → known c.
Proof.
  intros Hc H59 H58.
  assert (Hall : forallb (fun c => (c =? 59) || (c =? 58) || bool_decide (known c))
                   recognised = true) by (vm_compute; reflexivity).
  rewrite forallb_forall in Hall. apply list_elem_of_In, Hall in Hc.
  apply orb_true_iff in Hc as [Hc | Hc]; [|apply bool_decide_eq_true in Hc; exact Hc].
  apply orb_true_iff in Hc as [Hc | Hc]; apply N.eqb_eq in Hc; contradiction.
Qed.

Lemma joined_elem (out : list Token) (r : Token) (c : N) :
  r ∈ out → c ∈ r.1 → c ∈ joined out.
Proof.
  intros Hr Hc. unfold joined. apply list_elem_of_In, in_concat.
  exists r.1. split; [|apply list_elem_of_In, Hc].
  apply list_elem_of_In, list_elem_of_fmap. exists r. auto.
Qed.


Section Driver.

Variable str_lower : str → str.


(** ** A text the driver path translates *)

Lemma buffer_stays_written (outs : list str) : ∀ b : option str,
  is_Some b → is_Some (foldl buffer_add b outs).
Proof.
  induction outs as [|o outs IH]; intros b Hb; [exact Hb|].
  cbn [foldl]. apply IH. unfold buffer_add. eexists. reflexivity.
Qed.

(** A token with text makes the loop body write to the buffer, or push
    a token with text to the front of the queue. *)
Lemma action_progress (txt : str) (tg : tag) :
  txt ≠ [] →
  (translator_action str_lower txt tg).2 ≠ [] ∨
  ∃ tok rest, (translator_action str_lower txt tg).1 = tok :: rest ∧ tok.1 ≠ [].
Proof.
  intros Hne. unfold translator_action.
  destruct (translator_table !! txt) as [[[in_ out_] st_]|] eqn:Htr.
  - apply elem_of_map_to_list in Htr.
    assert (Hall : forallb (fun kv : str * Transition =>
              negb (bool_decide (kv.2.1.2 = []))
              || match kv.2.1.1 with
                 | tok :: _ => negb (bool_decide (tok.1 = []))
                 | [] => false
                 end) (map_to_list translator_table) = true) by (vm_compute; reflexivity).
    rewrite forallb_forall in Hall. apply list_elem_of_In, Hall in Htr.
    cbn [fst snd] in *. apply orb_true_iff in Htr as [Hout | Hin].
    + left. apply negb_true_iff, bool_decide_eq_false in Hout.
      destruct out_; [destruct (Hout eq_refl) | discriminate].
    + right. destruct in_ as [|tok rest]; [discriminate Hin|].
      apply negb_true_iff, bool_decide_eq_false in Hin. eauto.
  - right. cbn [transform translator]. unfold BrailleTranslator.transform.
    case_bool_decide; [|case_bool_decide].
    + eexists _, _. split; [reflexivity | discriminate].
    + eexists _, _. split; [reflexivity | discriminate].
    + destruct (BrailleTranslator.split_fragment _ txt tg) as [in_|] eqn:Hsplit; cbn [fst].
      * destruct (split_fragment_Some _ _ _ _ Hsplit) as (pre & x & post & Hx & _ & ->).
        assert (Hxne : x ≠ []).
        { repeat (apply elem_of_cons in Hx as [-> | Hx]);
            [intros [=] | intros [=] | apply elem_of_nil in Hx; destruct Hx]. }
        rewrite !filter_cons, filter_nil.
        destruct (decide (pre ≠ [])) as [Hp|_];
          [eexists _, _; split; [reflexivity | exact Hp]|].
        destruct (decide (x ≠ [])) as [_|Hxe]; [|destruct (Hxe Hxne)].
        eexists _, _. split; [reflexivity | exact Hxne].
      * destruct txt as [|c txt]; [destruct (Hne eq_refl)|].
        eexists _, _. split; [reflexivity | discriminate].
Qed.

Lemma translator_writes (fuel : nat) : ∀ (q : list Token) (b b' : option str),
  final (translator str_lower) fuel (translator_config q b)
    = Ret (inl (translator_config [] b')) →
  is_Some b ∨ (∃ tok rest, q = tok :: rest ∧ tok.1 ≠ []) →
  is_Some b'.
Proof.
  induction fuel as [|fuel IH]; intros q b b' Hrun Hstart.
  - simpl in Hrun. destruct q; [|discriminate]. injection Hrun as <-.
    destruct Hstart as [Hb | (? & ? & [=] & _)]. exact Hb.
  - destruct q as [|[txt tg] rest].
    + injection Hrun as <-. destruct Hstart as [Hb | (? & ? & [=] & _)]. exact Hb.
    + cbn [final in_seq translator_config] in Hrun.
      fold (translator_config ((txt, tg) :: rest) b) in Hrun.
      rewrite translator_config_step in Hrun. apply (IH _ _ _ Hrun).
      destruct Hstart as [Hb | (tok & r & [= <- <-] & Hne)].
      * left. apply buffer_stays_written, Hb.
      * cbn [fst] in Hne.
        destruct (action_progress txt tg Hne) as [Hout | (tok & r & -> & Htok)].
        -- left. destruct (translator_action str_lower txt tg).2 as [|o outs];
             [destruct (Hout eq_refl)|].
           cbn [foldl]. apply buffer_stays_written. eexists. reflexivity.
        -- right. eauto.
Qed.

Hypothesis lower_known : ∀ s,
  Forall known s → Forall known (str_lower s) ∧ (weight (str_lower s) ≤ weight s)%nat.

(** X15: through the driver path, a text with at least one recognised
    character and neither [';'] nor [':'] is translated: with enough
    iterations allowed the call returns, and what it returns is a string
    of Braille cells that is not empty. *)
Theorem translate_returns (s : str) :
  Forall (fun c => c ≠ 59 ∧ c ≠ 58) s →
  filter (fun c => c ∈ recognised) s ≠ [] →
  ∃ fuel t, BrailleTranslator.translate str_lower fuel s = Ret t ∧
    t ≠ [] ∧ Forall braille_cp t.
Proof.
  intros Hs Hsome.
  destruct (tokeniser_run s) as (out & p & Hrun & Hcov & _ & Hgood & _).
  assert (Hknown : known_tokens out).
  { apply Forall_forall. intros r Hr. apply Forall_forall. intros c Hc.
    pose proof (joined_elem out r c Hr Hc) as Hj. rewrite Hcov in Hj.
    apply list_elem_of_filter in Hj as [Hrec Hin].
    rewrite Forall_forall in Hs. destruct (Hs c Hin) as [H59 H58].
    apply recognised_known; assumption. }
  assert (Hhead : ∃ tok rest, out = tok :: rest ∧ tok.1 ≠ []).
  { destruct out as [|tok rest]; [rewrite <- Hcov in Hsome; destruct (Hsome eq_refl)|].
    inversion Hgood as [|? ? (_ & Hne & _) _]; subst. eauto. }
  destruct (translator_terminates str_lower lower_known (queue_cost out) out None Hknown
              (le_n _)) as [b' Hfin].
  destruct (translator_writes _ _ _ _ Hfin (or_intror Hhead)) as [t ->].
  destruct (translator_final_braille str_lower _ _ _ _ Hfin
              (fun t (E : None = Some t) => ltac:(discriminate E)) t eq_refl)
    as [Hne Hbr].
  exists (Nat.max (length s) (queue_cost out)), t. split; [|split; assumption].
  unfold BrailleTranslator.translate. rewrite new_unfold.
  rewrite (process_mono _ _ (Nat.max (length s) (queue_cost out)) _ _ Hrun) by lia.
  cbv beta iota.
  assert (Hloop : process (translator str_lower) (queue_cost out) (Tokens out)
                  = Ret (Some [(t, default_state)], [])).
  { rewrite process_translator_config. cbn [initial in_seq]. rewrite loop_final, Hfin.
    reflexivity. }
  rewrite (process_mono _ _ (Nat.max (length s) (queue_cost out)) _ _ Hloop) by lia.
  reflexivity.
Qed.

End Driver.

(** * The driver path at concrete inputs, with [str.lower] on ASCII *)


Lemma translate_returns_witness :
  ∃ fuel t, BrailleTranslator.translate ascii_lower fuel (py "Hi there.") = Ret t ∧
    t ≠ [] ∧ Forall braille_cp t.
Proof.
  apply (translate_returns ascii_lower ascii_lower_known (py "Hi there.")).
  - compute. repeat (constructor; [split; intros [=]|]). constructor.
  - vm_compute. intros [=].
Defined.

(** * Numbers through the driver path *)

Lemma tokeniser_digit_first (d : N) :
  d ∈ BrailleTokeniser.digit →
  tokeniser_table whitespace_tag !! [d]
  = Some (([], [FSM_end; str_obj [d]], number_tag) : Transition).
Proof.
  intros Hd.
  assert (Hall : forallb (fun d => bool_decide
            (tokeniser_table whitespace_tag !! [d]
             = Some (([], [FSM_end; str_obj [d]], number_tag) : Transition)))
            BrailleTokeniser.digit = true) by (vm_compute; reflexivity).
  rewrite forallb_forall in Hall. apply list_elem_of_In, Hall, bool_decide_eq_true in Hd.
  exact Hd.
Qed.

Lemma tokeniser_digit_next (d : N) :
  d ∈ BrailleTokeniser.digit →
  tokeniser_table number_tag !! [d]
  = Some (([], [str_obj [d]], number_tag) : Transition).
Proof.
  intros Hd.
  assert (Hall : forallb (fun d => bool_decide
            (tokeniser_table number_tag !! [d]
             = Some (([], [str_obj [d]], number_tag) : Transition)))
            BrailleTokeniser.digit = true) by (vm_compute; reflexivity).
  rewrite forallb_forall in Hall. apply list_elem_of_In, Hall, bool_decide_eq_true in Hd.
  exact Hd.
Qed.

Lemma digit_not_end (d : N) : d ∈ BrailleTokeniser.digit → [d] ≠ py "|".
Proof.
  intros Hd [= ->].
  assert (Hno : bool_decide (124 ∈ BrailleTokeniser.digit) = false)
    by (vm_compute; reflexivity).
  apply bool_decide_eq_false in Hno. exact (Hno Hd).
Qed.

(** In the number state, digits join the run. *)
Lemma tokeniser_digits (s : str) : ∀ b : str,
  Forall (fun c => c ∈ BrailleTokeniser.digit) s →
  final BrailleTokeniser.new (length s)
    {| in_seq := (fun t => (t, None)) <$> chars_of s; out_txt := Some b;
       out_seq := []; state := number_tag; printed := [] |}
  = Ret (inl {| in_seq := []; out_txt := Some (b ++ s); out_seq := [];
                state := number_tag; printed := [] |}).
Proof.
  induction s as [|d s IH]; intros b Hs.
  - cbn. rewrite app_nil_r. reflexivity.
  - inversion Hs as [|? ? Hd Hrest]; subst.
    cbn [length chars_of fmap list_fmap final in_seq]. fold (chars_of s).
    unfold body. cbn [state out_txt out_seq printed].
    rewrite (tokeniser_state_defined number_tag) by (unfold tokeniser_states; repeat constructor).
    cbv beta iota. rewrite (tokeniser_digit_next d Hd).
    cbn [foldl app].
    rewrite emit_text by (rewrite tokeniser_end; apply str_obj_not_end, digit_not_end, Hd).
    cbn [chars str_obj]. unfold buffer_add. rewrite IH by exact Hrest.
    rewrite <- app_assoc. reflexivity.
Qed.

(** A string of digits is one number run. *)
Lemma tokeniser_number (s : str) :
  s ≠ [] → Forall (fun c => c ∈ BrailleTokeniser.digit) s →
  process BrailleTokeniser.new (length s) (Text s) = Ret (Some [(s, number_tag)], []).
Proof.
  intros Hne Hs. destruct s as [|d s]; [destruct (Hne eq_refl)|].
  inversion Hs as [|? ? Hd Hrest]; subst.
  unfold process. rewrite loop_final. unfold initial.
  cbn [length chars_of fmap list_fmap final in_seq]. fold (chars_of s).
  unfold body. cbn [state out_txt out_seq printed]. rewrite tokeniser_start.
  rewrite (tokeniser_state_defined whitespace_tag) by (unfold tokeniser_states; repeat constructor).
  cbv beta iota. rewrite (tokeniser_digit_first d Hd).
  cbn [foldl app]. rewrite emit_end by (rewrite tokeniser_end; reflexivity).
  rewrite emit_text by (rewrite tokeniser_end; apply str_obj_not_end, digit_not_end, Hd).
  rewrite tokeniser_postprocess. cbn [FSM_postprocess app chars str_obj].
  unfold buffer_add. rewrite (tokeniser_digits s [d] Hrest). reflexivity.
Qed.

(** A text without the first character of [x] does not have [x]. *)
Lemma find_from_absent (x0 : N) (x : str) : ∀ (txt : str) (i : Z),
  Forall (fun c => c ≠ x0) txt → find_from (x0 :: x) txt i = (-1)%Z.
Proof.
  induction txt as [|c txt IH]; intros i Htxt; cbn [find_from].
  - unfold is_prefix. rewrite bool_decide_eq_false_2 by discriminate. reflexivity.
  - inversion Htxt as [|? ? Hc Hrest]; subst. unfold is_prefix.
    rewrite bool_decide_eq_false_2 by (cbn; intros [= E _]; exact (Hc E)).
    apply IH, Hrest.
Qed.

Lemma digit_key (d : N) :
  d ∈ BrailleTokeniser.digit →
  ∃ o, translator_table !! [d] = Some (([], [o], default_state) : Transition) ∧
       chars o = cell_of d ∧ d ≠ 101 ∧ d ≠ 105.
Proof.
  intros Hd.
  assert (Hall : forallb (fun d =>
            match (translator_table !! [d] : option Transition) with
            | Some ([], [o], st) =>
                bool_decide (st = default_state) && bool_decide (chars o = cell_of d)
                && negb (d =? 101) && negb (d =? 105)
            | _ => false
            end) BrailleTokeniser.digit = true) by (vm_compute; reflexivity).
  rewrite forallb_forall in Hall. apply list_elem_of_In, Hall in Hd.
  destruct (translator_table !! [d]) as [[[[|] [|o [|]]] st]|]; try discriminate Hd.
  apply andb_true_iff in Hd as [Hd H105]. apply andb_true_iff in Hd as [Hd H101].
  apply andb_true_iff in Hd as [Hst Ho]. apply bool_decide_eq_true in Hst, Ho. subst st.
  apply negb_true_iff, N.eqb_neq in H101, H105. exists o. auto.
Qed.

(** The keys of the translator's table that are made of digits are
    single digits. *)
Lemma digits_not_key (s : str) :
  (2 ≤ length s)%nat → Forall (fun c => c ∈ BrailleTokeniser.digit) s →
  translator_table !! s = None.
Proof.
  intros Hlen Hs. destruct (translator_table !! s) as [t|] eqn:Ht; [|reflexivity].
  exfalso. apply elem_of_map_to_list in Ht.
  assert (Hall : forallb (fun kv : str * Transition =>
            (length kv.1 <=? 1)%nat
            || negb (forallb (fun c => bool_decide (c ∈ BrailleTokeniser.digit)) kv.1))
            (map_to_list translator_table) = true) by (vm_compute; reflexivity).
  rewrite forallb_forall in Hall. apply list_elem_of_In, Hall in Ht. cbn [fst] in Ht.
  apply orb_true_iff in Ht as [Hl | Hd].
  - apply Nat.leb_le in Hl. lia.
  - apply negb_true_iff in Hd.
    assert (Ht : forallb (fun c => bool_decide (c ∈ BrailleTokeniser.digit)) s = true).
    { apply forallb_forall. intros c Hc. apply bool_decide_eq_true.
      rewrite Forall_forall in Hs. apply Hs, list_elem_of_In, Hc. }
    congruence.
Qed.

Lemma foldl_buffer_add_concat (l : list str) : ∀ b : option str,
  default [] (foldl buffer_add b l) = default [] b ++ concat l.
Proof.
  induction l as [|o l IH]; intros b; cbn [foldl concat].
  - rewrite app_nil_r. reflexivity.
  - rewrite IH. destruct b; cbn; [rewrite app_assoc|]; reflexivity.
Qed.

Section Numbers.

Variable str_lower : str → str.

(** The digits of a run, one token each, leave their cells in the
    buffer. *)
Lemma translator_digit_tokens (s : str) : ∀ b : option str,
  Forall (fun c => c ∈ BrailleTokeniser.digit) s →
  final (translator str_lower) (length s)
    (translator_config ((fun t => (t, lower_tag)) <$> chars_of s) b)
  = Ret (inl (translator_config [] (foldl buffer_add b (cell_of <$> s)))).
Proof.
  induction s as [|d s IH]; intros b Hs; [reflexivity|].
  inversion Hs as [|? ? Hd Hrest]; subst.
  cbn [length chars_of fmap list_fmap final in_seq translator_config].
  fold (chars_of s).
  fold (translator_config (([d], lower_tag) :: ((fun t => (t, lower_tag)) <$> chars_of s)) b).
  rewrite translator_config_step.
  destruct (digit_key d Hd) as (o & Hkey & Ho & _).
  unfold translator_action. rewrite Hkey. cbn [fst snd app fmap list_fmap foldl].
  rewrite Ho. apply IH, Hrest.
Qed.

Lemma action_digits (s : str) :
  (2 ≤ length s)%nat → Forall (fun c => c ∈ BrailleTokeniser.digit) s →
  translator_action str_lower s lower_tag
  = ((fun t => (t, lower_tag)) <$> chars_of s, []).
Proof.
  intros Hlen Hs. unfold translator_action. rewrite (digits_not_key s Hlen Hs).
  cbn [transform translator]. unfold BrailleTranslator.transform.
  rewrite !bool_decide_eq_false_2 by discriminate.
  cbn [BrailleTranslator.split_fragment]. unfold str_find.
  change (py "ed") with (101 :: py "d"). change (py "ing") with (105 :: py "ng").
  rewrite !find_from_absent; [reflexivity| |].
  - eapply Forall_impl; [exact Hs|]. intros d Hd.
    destruct (digit_key d Hd) as (_ & _ & _ & _ & H105). exact H105.
  - eapply Forall_impl; [exact Hs|]. intros d Hd.
    destruct (digit_key d Hd) as (_ & _ & _ & H101 & _). exact H101.
Qed.

(** X16: through the driver path, a string of two or more digits comes
    out as the number indicator followed, digit by digit, by the cell of
    the letter that has the digit's position: the cell which translating
    the letter at position [i] of ["abcdefghij"] gives, for the digit at
    position [i] of ["1234567890"]. *)
Theorem number_translation (s : str) (fuel : nat) :
  (2 ≤ length s)%nat → Forall (fun c => c ∈ BrailleTokeniser.digit) s →
  (length s + 3 ≤ fuel)%nat →
  ∃ ind cells, number_indicator = Some ind ∧
    Forall2 (fun d cell => ∃ i l,
               py "1234567890" !! i = Some d ∧ py "abcdefghij" !! i = Some l ∧
               BrailleTranslator.translate str_lower fuel [l] = Ret cell) s cells ∧
    BrailleTranslator.translate str_lower fuel s = Ret (ind ++ concat cells).
Proof.
  intros Hlen Hs Hfuel.
  exists [0x283C], (cell_of <$> s). split; [apply indicators|]. split.
  - apply Forall2_fmap_r, Forall_Forall2_diag. eapply Forall_impl; [exact Hs|].
    intros d Hd. cbn.
    assert (Hall : forallb (fun d => existsb (fun i : nat =>
              match py "1234567890" !! i, py "abcdefghij" !! i with
              | Some d', Some l =>
                  (d' =? d)
                  && bool_decide (BrailleTranslator.translate str_lower 1 [l]
                                  = Ret (cell_of d))
              | _, _ => false
              end) (seq 0 10)) BrailleTokeniser.digit = true)
      by (vm_compute; reflexivity).
    rewrite forallb_forall in Hall. apply list_elem_of_In, Hall in Hd.
    apply existsb_exists in Hd as (i & _ & Hi).
    destruct (py "1234567890" !! i) as [d'|] eqn:Ed; [|discriminate Hi].
    destruct (py "abcdefghij" !! i) as [l|] eqn:El; [|discriminate Hi].
    apply andb_true_iff in Hi as [Hd' Hl]. apply N.eqb_eq in Hd'. subst d'.
    apply bool_decide_eq_true in Hl. exists i, l. split; [exact Ed|].
    split; [exact El|]. apply (translate_mono str_lower 1 fuel _ _ Hl). lia.
  - assert (Hne : s ≠ []) by (destruct s; [cbn in Hlen; lia | discriminate]).
    pose proof (tokeniser_number s Hne Hs) as Htok.
    assert (Hlow : process (translator str_lower) (1 + length s) (Tokens [(s, lower_tag)])
                   = Ret (Some (single_record (foldl buffer_add None (cell_of <$> s))
                                  default_state), [])).
    { rewrite process_translator_config. cbn [initial in_seq Nat.add].
      erewrite loop_cons by reflexivity.
      rewrite translator_config_step, (action_digits s Hlen Hs).
      cbn [fst snd foldl]. rewrite app_nil_r, loop_final.
      rewrite (translator_digit_tokens s None Hs).
      unfold trailing, single_record. cbn.
      destruct (foldl buffer_add None (cell_of <$> s)); reflexivity. }
    destruct (number_run_gets_indicator str_lower s _ _ _ (digits_not_key s Hlen Hs) Hlow)
      as (out' & Hnum & Hj).
    pose proof (translator_loop_final str_lower _ _ _ _ Hnum) as (b' & _ & [= ->]).
    rewrite !joined_single_record, foldl_buffer_add_concat in Hj.
    destruct b' as [t|]; [|discriminate Hj]. cbn in Hj. subst t.
    unfold BrailleTranslator.translate. rewrite new_unfold.
    rewrite (process_mono _ _ fuel _ _ Htok) by lia. cbv beta iota.
    rewrite (process_mono _ _ fuel _ _ Hnum) by lia. reflexivity.
Qed.

End Numbers.

(** ["2024"]. *)
Lemma number_translation_witness :
  ∃ ind cells, number_indicator = Some ind ∧
    Forall2 (fun d cell => ∃ i l,
               py "1234567890" !! i = Some d ∧ py "abcdefghij" !! i = Some l ∧
               BrailleTranslator.translate ascii_lower 7 [l] = Ret cell) (py "2024") cells ∧
    BrailleTranslator.translate ascii_lower 7 (py "2024") = Ret (ind ++ concat cells).
Proof.
  apply (number_translation ascii_lower (py "2024") 7).
  - compute. lia.
  - repeat (constructor; [unfold BrailleTokeniser.digit; repeat constructor|]). constructor.
  - compute. lia.
Defined.

(** * The meshes *)

Lemma length_range_Z (a b : Z) : length (range_Z a b) = Z.to_nat (b - a).
Proof. unfold range_Z. rewrite length_fmap, length_seq. reflexivity. Qed.

Lemma elem_of_range_Z (a b x : Z) : x ∈ range_Z a b → (a ≤ x < b)%Z.
Proof.
  unfold range_Z. intros Hx. apply list_elem_of_fmap in Hx as (k & -> & Hk).
  apply elem_of_seq in Hk. lia.
Qed.

Lemma tri_in_range_mono (n n' : nat) (t : Tri) :
  (n ≤ n')%nat → tri_in_range n t → tri_in_range n' t.
Proof. destruct t as [[i j] k]. unfold tri_in_range. lia. Qed.

Lemma Forall_tri_mono (n n' : nat) (tri : list Tri) :
  (n ≤ n')%nat → Forall (tri_in_range n) tri → Forall (tri_in_range n') tri.
Proof.
  intros Hle Htri. eapply Forall_impl; [exact Htri|].
  intros t. apply tri_in_range_mono, Hle.
Qed.

Lemma length_shift (N : Z) (tri : list Tri) : length (shift N tri) = length tri.
Proof. apply length_fmap. Qed.

Lemma shift_in_range (n k : nat) (tri : list Tri) :
  Forall (tri_in_range k) tri →
  Forall (tri_in_range (n + k)) (shift (Z.of_nat n) tri).
Proof.
  intros Htri. apply Forall_fmap. eapply Forall_impl; [exact Htri|].
  intros [[i j] l]. unfold tri_in_range. cbn. lia.
Qed.

Lemma length_seal_disc (vpr ring_i0 centre_i ring_i : Z) :
  length (seal_disc vpr ring_i0 centre_i ring_i) = Z.to_nat vpr.
Proof.
  unfold seal_disc. rewrite length_fmap, length_range_Z. f_equal. lia.
Qed.

Lemma seal_disc_in_range (n : nat) (vpr ring_i0 centre_i ring_i : Z) :
  (0 ≤ ring_i0)%Z → (ring_i0 + vpr ≤ Z.of_nat n)%Z → (0 ≤ centre_i < Z.of_nat n)%Z →
  Forall (tri_in_range n) (seal_disc vpr ring_i0 centre_i ring_i).
Proof.
  intros Hlo Hhi Hc. apply Forall_fmap, Forall_forall. intros i Hi.
  apply elem_of_range_Z in Hi. cbn.
  pose proof (Z.mod_pos_bound (i + 1) vpr ltac:(lia)). lia.
Qed.



Lemma length_seal_cylinder (vpr r1 r2 : Z) :
  length (seal_cylinder vpr r1 r2) = (2 * Z.to_nat vpr)%nat.
Proof.
  unfold seal_cylinder.
  assert (Hl : ∀ l : list Z, length (concat ((fun i => let j := ((i + 1) mod vpr)%Z in
                 plane (r1 + i) (r1 + j) (r2 + j) (r2 + i)) <$> l)) = (2 * length l)%nat).
  { induction l as [|i l IH]; [reflexivity|]. cbn in *. lia. }
  rewrite Hl, length_range_Z. f_equal. f_equal. lia.
Qed.

Lemma seal_cylinder_in_range (n : nat) (vpr r1 r2 : Z) :
  (0 ≤ r1)%Z → (r1 + vpr ≤ Z.of_nat n)%Z → (0 ≤ r2)%Z → (r2 + vpr ≤ Z.of_nat n)%Z →
  Forall (tri_in_range n) (seal_cylinder vpr r1 r2).
Proof.
  intros H1 H1' H2 H2'. unfold seal_cylinder.
  apply Forall_concat, Forall_fmap, Forall_forall. intros i Hi.
  apply elem_of_range_Z in Hi. cbn.
  pose proof (Z.mod_pos_bound (i + 1) vpr ltac:(lia)).
  repeat constructor; lia.
Qed.

Section Meshes.

Context {num : Type} `{PyNum num}.

Lemma length_extend (m m_ : Mesh num) :
  length (extend m m_).1 = (length m.1 + length m_.1)%nat ∧
  length (extend m m_).2 = (length m.2 + length m_.2)%nat.
Proof.
  unfold extend. cbn [fst snd]. rewrite !length_app, length_shift. auto.
Qed.

Lemma extend_well_formed (m m_ : Mesh num) :
  well_formed m → well_formed m_ → well_formed (extend m m_).
Proof.
  unfold well_formed, extend. cbn [fst snd]. intros Hm Hm_.
  rewrite length_app. apply Forall_app. split.
  - apply (Forall_tri_mono (length m.1)); [lia | exact Hm].
  - apply shift_in_range, Hm_.
Qed.

(** A mesh added to another keeps its shape: the indices of its
    triangles are moved by the number of the vertices before its own, so
    that each triangle names the vertices it named. *)
Lemma corners_extend (m m_ : Mesh num) :
  well_formed m → well_formed m_ →
  corners (extend m m_) = corners m ++ corners m_.
Proof.
  unfold well_formed, corners, extend, shift. cbn [fst snd]. intros Hm Hm_.
  rewrite fmap_app, <- list_fmap_compose. f_equal.
  - apply Forall_fmap_ext_1. eapply Forall_impl; [exact Hm|].
    intros [[i j] k] (Hi & Hj & Hk). unfold vertex.
    rewrite !decide_True by lia. rewrite !lookup_app_l by lia. reflexivity.
  - apply Forall_fmap_ext_1. eapply Forall_impl; [exact Hm_|].
    intros [[i j] k] (Hi & Hj & Hk). cbn. unfold vertex.
    rewrite !decide_True by lia. rewrite !lookup_app_r by lia.
    repeat f_equal; lia.
Qed.

(** One ring of the dome more: as many vertices as a ring has, twice as
    many triangles, all naming vertices that are there. *)
Lemma taper_ring_counts (Hc Ht : num) (vpr Ntr : Z) (circle : list (Vtx num)) (m : Mesh num) (i : Z) :
  (1 ≤ vpr)%Z → length circle = Z.to_nat vpr → (Z.to_nat vpr ≤ length m.1)%nat →
  well_formed m →
  let m' := taper_ring Hc Ht vpr Ntr circle m i in
  length m'.1 = (length m.1 + Z.to_nat vpr)%nat ∧
  length m'.2 = (length m.2 + 2 * Z.to_nat vpr)%nat ∧
  well_formed m'.
Proof.
  intros Hvpr Hcircle Hlen Hwf. destruct m as [vtx tri]. cbn [fst snd] in *.
  unfold taper_ring. cbn [fst snd]. unfold well_formed in *. cbn [fst snd] in *.
  rewrite !length_app, !length_fmap, length_seal_cylinder, Hcircle.
  split; [reflexivity|]. split; [reflexivity|].
  apply Forall_app. split.
  - apply (Forall_tri_mono (length vtx)); [lia | exact Hwf].
  - apply seal_cylinder_in_range; lia.
Qed.

Lemma taper_rings_counts (Hc Ht : num) (vpr Ntr : Z) (circle : list (Vtx num)) (l : list Z) :
  ∀ m : Mesh num,
  (1 ≤ vpr)%Z → length circle = Z.to_nat vpr → (Z.to_nat vpr ≤ length m.1)%nat →
  well_formed m →
  let m' := foldl (taper_ring Hc Ht vpr Ntr circle) m l in
  length m'.1 = (length m.1 + length l * Z.to_nat vpr)%nat ∧
  length m'.2 = (length m.2 + length l * (2 * Z.to_nat vpr))%nat ∧
  well_formed m'.
Proof.
  induction l as [|i l IH]; intros m Hvpr Hcircle Hlen Hwf; cbn [foldl length].
  - split; [lia|]. split; [lia | exact Hwf].
  - destruct (taper_ring_counts Hc Ht vpr Ntr circle m i Hvpr Hcircle Hlen Hwf)
      as (Hv & Ht' & Hwf').
    destruct (IH (taper_ring Hc Ht vpr Ntr circle m i) Hvpr Hcircle ltac:(lia) Hwf')
      as (Hv2 & Ht2 & Hwf2).
    split; [lia|]. split; [lia | exact Hwf2].
Qed.

(** The top of the dome: one vertex more, and a disc of triangles from
    the last ring to it. *)
Lemma cap_counts (vpr : Z) (m : Mesh num) (top : Vtx num) :
  (1 ≤ vpr)%Z → (Z.to_nat vpr ≤ length m.1)%nat → well_formed m →
  let vtx := m.1 ++ [top] in
  let centre_i := (Z.of_nat (length vtx) - 1)%Z in
  let ring_i0 := (centre_i - vpr)%Z in
  let m' : Mesh num :=
    (vtx, m.2 ++ ((fun t : Tri => let '(i, j, k) := t in (j, i, k))
                  <$> seal_disc vpr ring_i0 centre_i ring_i0)) in
  length m'.1 = (length m.1 + 1)%nat ∧
  length m'.2 = (length m.2 + Z.to_nat vpr)%nat ∧
  well_formed m'.
Proof.
  intros Hvpr Hlen Hwf. destruct m as [vtx tri]. unfold well_formed in *.
  cbn [fst snd] in *. rewrite !length_app, length_fmap, length_seal_disc. cbn [length].
  split; [reflexivity|]. split; [reflexivity|].
  apply Forall_app. split.
  - apply (Forall_tri_mono (length vtx)); [lia | exact Hwf].
  - apply Forall_fmap.
    eapply Forall_impl;
      [apply (seal_disc_in_range (length vtx + 1)); lia|].
    intros [[i j] k]. unfold tri_in_range. cbn. lia.
Qed.

Lemma unit_dot_counts (taper : num) (vtx_per_ring n_taper_rings : Z) :
  (1 ≤ vtx_per_ring)%Z → (0 ≤ n_taper_rings)%Z →
  ∃ m, generate_unit_dot taper vtx_per_ring n_taper_rings = Some m ∧
     Z.of_nat (length m.1) = (2 + vtx_per_ring * (n_taper_rings + 2))%Z ∧
     Z.of_nat (length m.2) = (vtx_per_ring * (2 * n_taper_rings + 4))%Z ∧
     well_formed m.
Proof.
  intros Hvpr Hn. unfold generate_unit_dot.
  destruct (vtx_per_ring =? 0)%Z eqn:E; [apply Z.eqb_eq in E; lia|].
  eexists. split; [reflexivity|].
  set (circle := (fun i => (fsin _, fcos _, of_int 0)) <$> range_Z 0 vtx_per_ring).
  assert (Hcircle : length circle = Z.to_nat vtx_per_ring).
  { unfold circle. rewrite length_fmap, length_range_Z. f_equal. lia. }
  clearbody circle.
  match goal with |- context [foldl _ ?init _] => set (m0 := init) end.
  assert (Hv0 : length m0.1 = (1 + 2 * Z.to_nat vtx_per_ring)%nat).
  { unfold m0. cbn [fst]. rewrite !length_app, length_fmap, Hcircle. cbn. lia. }
  assert (Ht0 : length m0.2 = (3 * Z.to_nat vtx_per_ring)%nat).
  { unfold m0. cbn [snd]. rewrite !length_app, length_seal_disc, length_seal_cylinder. lia. }
  assert (Hwf0 : well_formed m0).
  { unfold well_formed, m0. cbn [fst snd].
    rewrite !length_app, length_fmap, Hcircle. cbn [length].
    apply Forall_app. split;
      [apply seal_disc_in_range | apply seal_cylinder_in_range]; lia. }
  clearbody m0.
  destruct (taper_rings_counts taper (fsub (of_int 1) taper) vtx_per_ring
              (n_taper_rings + 1) circle (range_Z 1 (n_taper_rings + 1)) m0
              Hvpr Hcircle ltac:(lia) Hwf0) as (Hv & Ht & Hwf).
  rewrite length_range_Z in Hv, Ht.
  pose proof (fun Hl => cap_counts vtx_per_ring _ (of_int 0, of_int 0, of_int 1)
                          Hvpr Hl Hwf) as Hcap.
  destruct Hcap as (Hv' & Ht' & Hwf'); [lia|].
  split; [|split; [|exact Hwf']].
  - refine (eq_trans (f_equal Z.of_nat Hv') _). lia.
  - refine (eq_trans (f_equal Z.of_nat Ht') _). lia.
Qed.

(** X17: a generator made with at least one vertex per ring and no
    negative number of dome rings holds a unit dot of
    [2 + vtx_per_ring * (n_taper_rings + 2)] vertices (the two centres and
    the rings) and [vtx_per_ring * (2 * n_taper_rings + 4)] triangles, and
    every index of every triangle names one of these vertices. *)
Theorem generator_holds_unit_dot
    (dot_radius dot_height dot_dx dot_dy char_dx char_dy dot_taper : num)
    (dot_vtx_per_ring dot_n_taper_rings : Z) :
  (1 ≤ dot_vtx_per_ring)%Z → (0 ≤ dot_n_taper_rings)%Z →
  ∃ self, Braille3DGenerator_init dot_radius dot_height dot_dx dot_dy char_dx char_dy
            dot_taper dot_vtx_per_ring dot_n_taper_rings = Some self ∧
    Z.of_nat (length (unit_vtx self))
      = (2 + dot_vtx_per_ring * (dot_n_taper_rings + 2))%Z ∧
    Z.of_nat (length (unit_tri self))
      = (dot_vtx_per_ring * (2 * dot_n_taper_rings + 4))%Z ∧
    unit_well_formed self.
Proof.
  intros Hvpr Hn. unfold Braille3DGenerator_init.
  destruct (unit_dot_counts dot_taper dot_vtx_per_ring dot_n_taper_rings Hvpr Hn)
    as ([uv ut] & -> & Hv & Ht & Hwf).
  eexists. split; [reflexivity|]. auto.
Qed.

End Meshes.

Section Characters.

Context {num : Type} `{PyNum num}.

Variable self : @Braille3DGenerator num.

Lemma dots_mesh_nil : dots_mesh self 0 ([], []).
Proof. repeat split. constructor. Qed.

Lemma dots_mesh_extend (k k' : nat) (m m_ : Mesh num) :
  dots_mesh self k m → dots_mesh self k' m_ → dots_mesh self (k + k') (extend m m_).
Proof.
  intros (Hv & Ht & Hwf) (Hv' & Ht' & Hwf').
  destruct (length_extend m m_) as [Hlv Hlt].
  split; [lia|]. split; [lia|]. apply extend_well_formed; assumption.
Qed.

Lemma dots_mesh_dot (xyz : Vtx num) :
  unit_well_formed self → dots_mesh self 1 (generate_dot self xyz).
Proof.
  intros Hwf. destruct xyz as [[x y] z]. unfold generate_dot, dots_mesh, well_formed.
  cbn [fst snd]. rewrite !length_fmap. split; [lia|]. split; [lia|].
  apply Forall_fmap. eapply Forall_impl; [exact Hwf|].
  intros [[i j] k]. exact id.
Qed.

Lemma dots_mesh_put (k : nat) (c : N) (xyz : Vtx num) (m : Mesh num) :
  unit_well_formed self → dots_mesh self k m →
  dots_mesh self (k + length (filter (fun c => c = 49) [c])) (put_dot self c xyz m).
Proof.
  intros Hwf Hm. unfold put_dot. destruct (decide (c = 49)) as [->|Hc].
  - apply dots_mesh_extend; [exact Hm | apply dots_mesh_dot, Hwf].
  - rewrite filter_cons_False by exact Hc. cbn. rewrite Nat.add_0_r. exact Hm.
Qed.

(** The two loops of [generate_char], unrolled: six characters are read,
    in the order of the string. *)
Lemma generate_char_unfold (dotstring : str) (xyz : Vtx num) (c0 c1 c2 c3 c4 c5 : N)
    (rest : str) :
  dot_bits dotstring = c0 :: c1 :: c2 :: c3 :: c4 :: c5 :: rest →
  ∃ p0 p1 p2 p3 p4 p5,
    generate_char self dotstring xyz
    = Some (put_dot self c5 p5 (put_dot self c4 p4 (put_dot self c3 p3
           (put_dot self c2 p2 (put_dot self c1 p1 (put_dot self c0 p0 ([], []))))))).
Proof.
  intros Hs. destruct xyz as [[x y] z]. unfold generate_char. rewrite Hs.
  do 6 eexists. reflexivity.
Qed.

Lemma generate_char_short (dotstring : str) (xyz : Vtx num) :
  (length (dot_bits dotstring) < 6)%nat → generate_char self dotstring xyz = None.
Proof.
  intros Hlen. destruct xyz as [[x y] z]. unfold generate_char.
  destruct (dot_bits dotstring) as [|c0 [|c1 [|c2 [|c3 [|c4 [|c5 rest]]]]]];
    [reflexivity .. |]. cbn in Hlen. lia.
Qed.

Lemma generate_char_dots (dotstring : str) (xyz : Vtx num) :
  unit_well_formed self → (6 ≤ length (dot_bits dotstring))%nat →
  ∃ m, generate_char self dotstring xyz = Some m ∧ dots_mesh self (raised dotstring) m.
Proof.
  intros Hwf Hlen. unfold raised.
  destruct (dot_bits dotstring) as [|c0 [|c1 [|c2 [|c3 [|c4 [|c5 rest]]]]]] eqn:Hs;
    try (cbn in Hlen; lia).
  destruct (generate_char_unfold dotstring xyz c0 c1 c2 c3 c4 c5 rest Hs)
    as (p0 & p1 & p2 & p3 & p4 & p5 & ->).
  eexists. split; [reflexivity|].
  change (take 6 (c0 :: c1 :: c2 :: c3 :: c4 :: c5 :: rest))
    with ([c0] ++ [c1] ++ [c2] ++ [c3] ++ [c4] ++ [c5]).
  rewrite !filter_app, !length_app, !Nat.add_assoc.
  do 5 (apply dots_mesh_put; [exact Hwf|]).
  apply (dots_mesh_put 0); [exact Hwf | apply dots_mesh_nil].
Qed.

Lemma for_each_cons {A S : Type} (x : A) (xs : list A) (body : A → S → option S) (s : S) :
  for_each (x :: xs) body s = s' ← body x s; for_each xs body s'.
Proof.
  unfold for_each. cbn [foldl]. cbn [mbind option_bind].
  destruct (body x s) as [s'|]; [reflexivity|].
  cbn [mbind option_bind]. induction xs as [|y ys IH]; [reflexivity | exact IH].
Qed.

(** The loop of [generate_line], from any mesh of dots. *)
Lemma line_loop (y z : num) (dotstrings : list str) :
  unit_well_formed self →
  ∀ (k : nat) (m0 : Mesh num) (x0 : num), dots_mesh self k m0 →
  match for_each dotstrings (line_char self y z (char_dx self)) (m0, x0) with
  | Some r => Forall (fun d => (6 ≤ length (dot_bits d))%nat) dotstrings ∧
              dots_mesh self (k + raised_line dotstrings) r.1
  | None => ¬ Forall (fun d => (6 ≤ length (dot_bits d))%nat) dotstrings
  end.
Proof.
  intros Hwf. induction dotstrings as [|d ds IH]; intros k m0 x0 Hm0.
  - cbn. split; [constructor|]. unfold raised_line. cbn. rewrite Nat.add_0_r. exact Hm0.
  - rewrite for_each_cons.
    change (line_char self y z (char_dx self) d (m0, x0))
      with (m_ ← generate_char self d (x0, y, z);
            Some (extend m0 m_, fadd x0 (char_dx self))).
    destruct (decide (6 ≤ length (dot_bits d))%nat) as [Hd | Hd].
    + destruct (generate_char_dots d (x0, y, z) Hwf Hd) as (m_ & -> & Hm_).
      cbn [mbind option_bind].
      specialize (IH (k + raised d)%nat (extend m0 m_) (fadd x0 (char_dx self))
                     (dots_mesh_extend _ _ _ _ Hm0 Hm_)).
      destruct (for_each ds _ _) as [r|].
      * destruct IH as [Hds Hr]. split; [constructor; assumption|].
        unfold raised_line in *. cbn [sum_list_with]. rewrite Nat.add_assoc. exact Hr.
      * intros Hall. apply IH. inversion Hall; assumption.
    + rewrite generate_char_short by lia. cbn [mbind option_bind].
      intros Hall. inversion Hall; subst. contradiction.
Qed.

(** The loop of [generate_lines], from any mesh of dots. *)
Lemma lines_loop (x z : num) (dotstrings_list : list (list str)) :
  unit_well_formed self →
  ∀ (k : nat) (m0 : Mesh num) (y0 : num), dots_mesh self k m0 →
  match for_each dotstrings_list (lines_line self x z (char_dy self)) (m0, y0) with
  | Some r => Forall (Forall (fun d => (6 ≤ length (dot_bits d))%nat)) dotstrings_list ∧
              dots_mesh self (k + sum_list_with raised_line dotstrings_list) r.1
  | None => ¬ Forall (Forall (fun d => (6 ≤ length (dot_bits d))%nat)) dotstrings_list
  end.
Proof.
  intros Hwf. induction dotstrings_list as [|d ds IH]; intros k m0 y0 Hm0.
  - cbn. split; [constructor|]. rewrite Nat.add_0_r. exact Hm0.
  - rewrite for_each_cons.
    change (lines_line self x z (char_dy self) d (m0, y0))
      with (m_ ← (r ← for_each d (line_char self y0 z (char_dx self)) (([], []), x);
                  Some r.1);
            Some (extend m0 m_, fsub y0 (char_dy self))).
    pose proof (line_loop y0 z d Hwf 0%nat ([], []) x dots_mesh_nil) as Hline.
    destruct (for_each d _ _) as [r_|]; cbn [mbind option_bind].
    + destruct Hline as [Hd Hm_].
      specialize (IH (k + raised_line d)%nat (extend m0 r_.1) (fsub y0 (char_dy self))
                     (dots_mesh_extend _ _ _ _ Hm0 Hm_)).
      destruct (for_each ds _ _) as [r|].
      * destruct IH as [Hds Hr]. split; [constructor; assumption|].
        cbn [sum_list_with]. rewrite Nat.add_assoc. exact Hr.
      * intros Hall. apply IH. inversion Hall; assumption.
    + intros Hall. inversion Hall; subst. contradiction.
Qed.

(** The meshes of the characters of a line, as the loop of
    [generate_line] puts them together from any mesh. *)
Lemma line_loop_corners (y z : num) (dotstrings : list str) :
  unit_well_formed self →
  ∀ (m0 : Mesh num) (x0 : num) r, well_formed m0 →
  for_each dotstrings (line_char self y z (char_dx self)) (m0, x0) = Some r →
  ∃ ms : list (Mesh num),
    Some <$> ms
    = imap (fun i d => generate_char self d
                         (Nat.iter i (fun x => fadd x (char_dx self)) x0, y, z))
           dotstrings ∧
    r.1.1 = m0.1 ++ concat (fst <$> ms) ∧
    corners r.1 = corners m0 ++ concat (corners <$> ms).
Proof.
  intros Hwf. induction dotstrings as [|d ds IH]; intros m0 x0 r Hm0 Hrun.
  - injection Hrun as <-. exists []. cbn. rewrite !app_nil_r. auto.
  - rewrite for_each_cons in Hrun.
    change (line_char self y z (char_dx self) d (m0, x0))
      with (m_ ← generate_char self d (x0, y, z);
            Some (extend m0 m_, fadd x0 (char_dx self))) in Hrun.
    destruct (generate_char self d (x0, y, z)) as [m_|] eqn:Hchar;
      [|discriminate Hrun].
    cbn [mbind option_bind] in Hrun.
    assert (Hm_ : well_formed m_).
    { destruct (decide (6 ≤ length (dot_bits d))%nat) as [Hd | Hd].
      - destruct (generate_char_dots d (x0, y, z) Hwf Hd) as (m' & Hm' & _ & _ & Hwf').
        rewrite Hchar in Hm'. injection Hm' as <-. exact Hwf'.
      - rewrite generate_char_short in Hchar by lia. discriminate Hchar. }
    destruct (IH (extend m0 m_) (fadd x0 (char_dx self)) r
                 (extend_well_formed _ _ Hm0 Hm_) Hrun) as (ms & Hms & Hv & Hc).
    exists (m_ :: ms). split; [|split].
    + rewrite imap_cons. cbn [fmap list_fmap]. f_equal; [exact (eq_sym Hchar)|].
      rewrite Hms. apply imap_ext. intros i d' _. unfold compose.
      rewrite Nat.iter_succ_r. reflexivity.
    + rewrite Hv. cbn [extend fst fmap list_fmap concat]. rewrite app_assoc. reflexivity.
    + rewrite Hc, (corners_extend _ _ Hm0 Hm_). cbn [fmap list_fmap concat].
      rewrite app_assoc. reflexivity.
Qed.

(** X18: [generate_char] reads six characters of the pattern, the first
    six that are ['0'] or ['1']: with fewer it raises ([IndexError]), and
    otherwise the mesh it returns has the vertices and triangles of one
    unit dot for each ['1'] among the six, every triangle naming vertices
    of the mesh. *)
Theorem generate_char_mesh (dotstring : str) (xyz : Vtx num) :
  unit_well_formed self →
  match generate_char self dotstring xyz with
  | Some m => (6 ≤ length (dot_bits dotstring))%nat ∧ dots_mesh self (raised dotstring) m
  | None => (length (dot_bits dotstring) < 6)%nat
  end.
Proof.
  intros Hwf. destruct (decide (6 ≤ length (dot_bits dotstring))%nat) as [Hlen | Hlen].
  - destruct (generate_char_dots dotstring xyz Hwf Hlen) as (m & -> & Hm). auto.
  - rewrite generate_char_short by lia. lia.
Qed.

(** X19: [generate_line] returns a mesh if every pattern of the line has
    its six characters, and raises otherwise. The mesh has the vertices
    and triangles of one unit dot for each raised dot of the line. It is
    made of the meshes of the characters, generated at [x], [x + dx],
    [x + dx + dx] and so on: its vertices are theirs, in the order of the
    line, and the indices of the triangles of each character are shifted
    behind the vertices already there, so that in the line every triangle
    names the three vertices it names in its character. *)
Theorem generate_line_mesh (dotstrings : list str) (x y z : num) :
  unit_well_formed self →
  match generate_line self dotstrings (x, y, z) with
  | Some m =>
      Forall (fun d => (6 ≤ length (dot_bits d))%nat) dotstrings ∧
      dots_mesh self (raised_line dotstrings) m ∧
      ∃ ms : list (Mesh num),
        Some <$> ms
        = imap (fun i d => generate_char self d
                             (Nat.iter i (fun x => fadd x (char_dx self)) x, y, z))
               dotstrings ∧
        m.1 = concat (fst <$> ms) ∧
        corners m = concat (corners <$> ms)
  | None => ¬ Forall (fun d => (6 ≤ length (dot_bits d))%nat) dotstrings
  end.
Proof.
  intros Hwf. unfold generate_line.
  pose proof (line_loop y z dotstrings Hwf 0%nat ([], []) x dots_mesh_nil) as Hloop.
  destruct (for_each dotstrings _ _) as [r|] eqn:Hrun; cbn [mbind option_bind];
    [|exact Hloop].
  destruct Hloop as [Hsix Hdots]. split; [exact Hsix|]. split; [exact Hdots|].
  destruct (line_loop_corners y z dotstrings Hwf ([], []) x r
              (proj2 (proj2 dots_mesh_nil)) Hrun) as (ms & Hms & Hv & Hc).
  exists ms. auto.
Qed.

(** X20: [generate_lines] returns a mesh if every pattern of every line
    has its six characters, and raises otherwise; the mesh has the
    vertices and triangles of one unit dot for each raised dot of the
    text, and every triangle names vertices of the mesh. *)
Theorem generate_lines_mesh (dotstrings_list : list (list str)) (xyz : Vtx num) :
  unit_well_formed self →
  match generate_lines self dotstrings_list xyz with
  | Some m => Forall (Forall (fun d => (6 ≤ length (dot_bits d))%nat)) dotstrings_list ∧
              dots_mesh self (sum_list_with raised_line dotstrings_list) m
  | None => ¬ Forall (Forall (fun d => (6 ≤ length (dot_bits d))%nat)) dotstrings_list
  end.
Proof.
  intros Hwf. destruct xyz as [[x y] z]. unfold generate_lines.
  pose proof (lines_loop x z dotstrings_list Hwf 0%nat ([], [])
                (fadd y (fmul (of_int (Z.of_nat (length dotstrings_list) - 1)) (char_dy self)))
                dots_mesh_nil) as Hloop.
  destruct (for_each dotstrings_list _ _) as [r|]; exact Hloop.
Qed.

End Characters.

(** * The model of the driver *)

Lemma unicode2dots_pattern (c : N) :
  braille_cp c →
  ∃ p, conversion_maps.2 !! [c] = Some p ∧
       (6 ≤ length (dot_bits p))%nat ∧ raised p = dot_count c.
Proof.
  intros Hc. apply braille_cp_in_range in Hc.
  assert (Hall : forallb (fun c : N =>
            match conversion_maps.2 !! [c] with
            | Some p => (6 <=? length (dot_bits p))%nat && (raised p =? dot_count c)%nat
            | None => false
            end) (range 0x2800 0x2840) = true) by (vm_compute; reflexivity).
  rewrite forallb_forall in Hall. apply list_elem_of_In, Hall in Hc.
  destruct (conversion_maps.2 !! [c]) as [p|]; [|discriminate Hc].
  apply andb_true_iff in Hc as [Hlen Hraised].
  apply Nat.leb_le in Hlen. apply Nat.eqb_eq in Hraised. exists p. auto.
Qed.

Lemma unicode2dots_key (c : N) : is_Some (conversion_maps.2 !! [c]) → braille_cp c.
Proof.
  intros [p Hp]. apply unicode2dots_entries in Hp as (_ & Hc & _).
  cbn [is_braille_char] in Hc. apply andb_true_iff in Hc as [Hlo Hhi].
  apply N.leb_le in Hlo, Hhi. unfold braille_cp. lia.
Qed.

Lemma line_of_patterns (unicode_dots : str) (line : list str) :
  Forall2 (fun x p => conversion_maps.2 !! [x] = Some p) unicode_dots line →
  Forall braille_cp unicode_dots ∧
  Forall (fun d => (6 ≤ length (dot_bits d))%nat) line ∧
  raised_line line = sum_list_with dot_count unicode_dots.
Proof.
  induction 1 as [|x p xs ps Hx Hxs (IH1 & IH2 & IH3)].
  - repeat split; constructor.
  - assert (Hc : braille_cp x) by (apply unicode2dots_key; eexists; exact Hx).
    destruct (unicode2dots_pattern x Hc) as (p' & Hp' & Hlen & Hraised).
    assert (p' = p) as -> by congruence.
    split; [constructor; assumption|]. split; [constructor; assumption|].
    unfold raised_line in *. cbn [sum_list_with]. lia.
Qed.

Lemma unit_cube_in_range : Forall (tri_in_range 8) unit_cube_tri.
Proof. unfold unit_cube_tri, plane. cbn [app]. repeat constructor; cbn; lia. Qed.

Section Model.

Context {num : Type} `{PyNum num}.

(** X21: the model the driver builds. With a string of Braille cells
    U+2800 to U+283F, the statements from the generator to the box
    return a mesh: 72 vertices and 140 triangles for every dot of the
    text, the dots of a cell being the bits set in its code point, and 8
    vertices and 12 triangles for the box; every triangle names vertices
    of the mesh. With any other character in the string they raise (the
    [KeyError] of [u2d[x]]). *)
Theorem model_of_braille (radius height taper d_dx d_dy c_dx c_dy : num)
    (unicode_dots : str) :
  match build_model radius height taper d_dx d_dy c_dx c_dy unicode_dots with
  | Some m =>
      Forall braille_cp unicode_dots ∧
      length m.1 = (72 * sum_list_with dot_count unicode_dots + 8)%nat ∧
      length m.2 = (140 * sum_list_with dot_count unicode_dots + 12)%nat ∧
      well_formed m
  | None => ¬ Forall braille_cp unicode_dots
  end.
Proof.
  unfold build_model, Braille3DGenerator_init.
  destruct (unit_dot_counts taper 10 5 ltac:(lia) ltac:(lia)) as ([uv ut] & -> & Hv & Ht & Hwf).
  cbn [mbind option_bind fst snd] in *. rewrite get_conversion_maps_returns.
  cbn [mbind option_bind].
  destruct (mapM (fun x => conversion_maps.2 !! [x]) unicode_dots) as [line|] eqn:Hmap;
    cbn [mbind option_bind].
  - apply mapM_Some in Hmap. apply line_of_patterns in Hmap as (Hcp & Hsix & Hraised).
    unfold generate_lines.
    match goal with |- context [for_each [line] (lines_line ?g ?x ?z _) (_, ?y)] =>
      pose proof (lines_loop g x z [line] Hwf 0%nat ([], []) y (dots_mesh_nil g)) as Hlines
    end.
    destruct (for_each [line] _ _) as [[m y1]|]; cbn [mbind option_bind fst snd] in *.
    + destruct Hlines as (_ & Hmv & Hmt & Hmwf). cbn [sum_list_with] in Hmv, Hmt.
      cbn [unit_vtx unit_tri] in Hmv, Hmt. rewrite Nat.add_0_r, Hraised in Hmv, Hmt.
      unfold generate_unit_cube. unfold well_formed in *. cbn [fst snd] in *.
      rewrite !length_app, length_fmap, length_shift. cbn [length unit_cube_tri].
      split; [exact Hcp|]. split; [lia|]. split; [cbn; lia|].
      apply Forall_app. split.
      * eapply Forall_tri_mono; [|exact Hmwf]. lia.
      * apply shift_in_range, unit_cube_in_range.
    + exfalso. apply Hlines. repeat constructor. exact Hsix.
  - intros Hcp. assert (Hsome : is_Some (mapM (fun x => conversion_maps.2 !! [x]) unicode_dots)).
    { apply mapM_is_Some. eapply Forall_impl; [exact Hcp|].
      intros c Hc. destruct (unicode2dots_pattern c Hc) as (p & Hp & _).
      cbn. rewrite Hp. eexists. reflexivity. }
    rewrite Hmap in Hsome. destruct Hsome as [? [=]].
Qed.

End Model.

(** * The meshes at concrete inputs, without the coordinates *)

Lemma generator_holds_unit_dot_witness :
  ∃ self, Braille3DGenerator_init tt tt tt tt tt tt tt 10 5 = Some self ∧
    Z.of_nat (length (unit_vtx self)) = 72%Z ∧
    Z.of_nat (length (unit_tri self)) = 140%Z ∧
    unit_well_formed self.
Proof.
  exact (generator_holds_unit_dot tt tt tt tt tt tt tt 10 5 ltac:(lia) ltac:(lia)).
Defined.

Lemma small_generator_well_formed :
  ∃ self, Braille3DGenerator_init tt tt tt tt tt tt tt 3 0 = Some self ∧
          unit_well_formed self ∧
          length (unit_vtx self) = 8%nat ∧ length (unit_tri self) = 12%nat.
Proof.
  eexists. split; [reflexivity|]. split.
  - unfold unit_well_formed, well_formed. vm_compute. repeat constructor; discriminate.
  - split; reflexivity.
Defined.

Lemma generate_char_mesh_witness :
  ∃ self, Braille3DGenerator_init tt tt tt tt tt tt tt 3 0 = Some self ∧
    match generate_char self (py "101 100") (tt, tt, tt) with
    | Some m => (6 ≤ length (dot_bits (py "101 100")))%nat ∧
                dots_mesh self (raised (py "101 100")) m
    | None => (length (dot_bits (py "101 100")) < 6)%nat
    end.
Proof.
  destruct small_generator_well_formed as (self & Hself & Hwf & _).
  exists self. split; [exact Hself|]. apply generate_char_mesh. exact Hwf.
Defined.

Lemma generate_line_mesh_witness :
  ∃ self, Braille3DGenerator_init tt tt tt tt tt tt tt 3 0 = Some self ∧
    match generate_line self [py "101 100"; py "000 000"; py "111 111"] (tt, tt, tt) with
    | Some m =>
        Forall (fun d => (6 ≤ length (dot_bits d))%nat)
               [py "101 100"; py "000 000"; py "111 111"] ∧
        dots_mesh self (raised_line [py "101 100"; py "000 000"; py "111 111"]) m ∧
        ∃ ms : list (Mesh unit),
          Some <$> ms
          = imap (fun i d => generate_char self d
                               (Nat.iter i (fun x => fadd x (char_dx self)) tt, tt, tt))
                 [py "101 100"; py "000 000"; py "111 111"] ∧
          m.1 = concat (fst <$> ms) ∧
          corners m = concat (corners <$> ms)
    | None =>
        ¬ Forall (fun d => (6 ≤ length (dot_bits d))%nat)
                 [py "101 100"; py "000 000"; py "111 111"]
    end.
Proof.
  destruct small_generator_well_formed as (self & Hself & Hwf & _).
  exists self. split; [exact Hself|]. apply generate_line_mesh. exact Hwf.
Defined.

Lemma generate_lines_mesh_witness :
  ∃ self, Braille3DGenerator_init tt tt tt tt tt tt tt 3 0 = Some self ∧
    match generate_lines self [[py "101 100"; py "000 000"]; [py "111 111"]] (tt, tt, tt) with
    | Some m =>
        Forall (Forall (fun d => (6 ≤ length (dot_bits d))%nat))
               [[py "101 100"; py "000 000"]; [py "111 111"]] ∧
        dots_mesh self
          (sum_list_with raised_line [[py "101 100"; py "000 000"]; [py "111 111"]]) m
    | None =>
        ¬ Forall (Forall (fun d => (6 ≤ length (dot_bits d))%nat))
                 [[py "101 100"; py "000 000"]; [py "111 111"]]
    end.
Proof.
  destruct small_generator_well_formed as (self & Hself & Hwf & _).
  exists self. split; [exact Hself|]. apply generate_lines_mesh. exact Hwf.
Defined.
